(** * PMS: Post Message Service (src/PMS.js)

    A shallow embedding of the PMS class: the settings ([set]), the outbound
    path ([send], [sendRAW]), the inbound path ([_receive], [_processMessage])
    and the event router ([on], [once], [trigger], [_fire], [off], [_off],
    [_offCallback]).

    Modelling conventions.
    - A JavaScript string is its sequence of UTF-16 code units, [list N].
    - [JSON.parse] and [JSON.stringify] are host built-ins; they are modelled
      by an executable parser and printer for the JSON grammar.  A number is
      kept as an exact decimal [m * 10^e] (the host rounds to a double, which
      is outside the model).
    - [_callbacks] is a plain JavaScript object used as a map from event
      names to arrays of records: a [gmap] for its own properties, read
      through [read_callbacks], which finds the members inherited from
      [Object.prototype] under the names that have no own property.
    - [_splitRegExp] is one regular expression object with the flag [g],
      on the prototype: its [lastIndex] is part of the world, shared by
      the instances.
    - Callbacks are opaque: calling one is recorded in a log of effects, as
      is every [postMessage]; a callback returns normally and does not call
      back into the instance.

    The definitions come first: the built-ins, the program, and the notions
    the statements use.  The proofs follow: the built-ins, the event
    router, the claims C1 to C10 in order, and further properties of the
    program. *)

From Stdlib Require Import ZArith NArith List Ascii String Decimal DecimalFacts DecimalN Lia.
From stdpp Require Import base option list gmap.

Set Default Proof Using "Type".

(** ** Strings as code units *)

(** The code units of a string literal of this file. *)
Definition str (s : string) : list N :=
  map N_of_ascii (list_ascii_of_string s).

(** ** JSON values *)

(** The values [JSON.parse] can return.  An object is the list of its
    members in order; a number is [m * 10^e]. *)
#[warnings="-register-all"]
Inductive json : Type :=
| JNull
| JBool (b : bool)
| JNum (m e : Z)
| JStr (s : list N)
| JArr (items : list json)
| JObj (members : list (list N * json)).

Section json_induction.
Variable P : json → Prop.
Hypothesis Hnull : P JNull.
Hypothesis Hbool : ∀ b, P (JBool b).
Hypothesis Hnum : ∀ m e, P (JNum m e).
Hypothesis Hstr : ∀ s, P (JStr s).
Hypothesis Harr : ∀ items, Forall P items → P (JArr items).
Hypothesis Hobj : ∀ members, Forall (λ kv, P (snd kv)) members → P (JObj members).

(** Induction on JSON values that reaches the values nested in arrays and
    objects. *)
Fixpoint json_nested_ind (v : json) : P v :=
    match v with
    | JNull => Hnull
    | JBool b => Hbool b
    | JNum m e => Hnum m e
    | JStr s => Hstr s
    | JArr items =>
        Harr items
          ((fix go (l : list json) : Forall P l :=
              match l with
              | [] => List.Forall_nil P
              | x :: l' => @List.Forall_cons _ P x l' (json_nested_ind x) (go l')
              end) items)
    | JObj members =>
        Hobj members
          ((fix go (l : list (list N * json)) : Forall (λ kv, P (snd kv)) l :=
              match l with
              | [] => List.Forall_nil _
              | kv :: l' =>
                  @List.Forall_cons _ (λ kv, P (snd kv)) kv l'
                    (json_nested_ind (snd kv)) (go l')
              end) members)
    end.
End json_induction.

(** ** JSON.stringify *)

(** Decimal digits of a natural number, most significant first. *)
Fixpoint print_uint (u : uint) : list N :=
  match u with
  | Nil => []
  | D0 u => 48%N :: print_uint u
  | D1 u => 49%N :: print_uint u
  | D2 u => 50%N :: print_uint u
  | D3 u => 51%N :: print_uint u
  | D4 u => 52%N :: print_uint u
  | D5 u => 53%N :: print_uint u
  | D6 u => 54%N :: print_uint u
  | D7 u => 55%N :: print_uint u
  | D8 u => 56%N :: print_uint u
  | D9 u => 57%N :: print_uint u
  end.

(** The decimal numeral of [n], without leading zero. *)
Definition print_N (n : N) : list N := print_uint (N.to_uint n).

(** An integer with its sign: [-] is code unit 45. *)
Definition print_Z (z : Z) : list N :=
  (if (z <? 0)%Z then [45%N] else []) ++ print_N (Z.abs_N z).

(** Number to string.  For an integer ([e = 0]) below 10^21 in magnitude
    this is the decimal numeral the host prints; other numbers are printed
    in the scientific form [m e exp], which denotes the same value. *)
Definition NumberToString (m e : Z) : list N :=
  print_Z m ++ (if (e =? 0)%Z then [] else 101%N :: print_Z e).

(** Lower-case hexadecimal digit of a value below 16. *)
Definition hex_digit (n : N) : N :=
  if (n <? 10)%N then (48 + n)%N else (87 + n)%N.

(** QuoteJSONString, one code unit: the quote (34) and the backslash (92)
    are escaped, the control characters below 32 become their short escape
    or a [\u00XX] escape, every other code unit is copied. *)
Definition escape_unit (c : N) : list N :=
  if (c =? 34)%N then [92; 34]%N
  else if (c =? 92)%N then [92; 92]%N
  else if (c =? 8)%N then [92; 98]%N
  else if (c =? 12)%N then [92; 102]%N
  else if (c =? 10)%N then [92; 110]%N
  else if (c =? 13)%N then [92; 114]%N
  else if (c =? 9)%N then [92; 116]%N
  else if (c <? 32)%N then
    [92; 117; 48; 48; hex_digit (c / 16); hex_digit (c mod 16)]%N
  else [c].

(** The escapes of all the code units of a string. *)
Fixpoint escape_units (s : list N) : list N :=
  match s with
  | [] => []
  | c :: r => escape_unit c ++ escape_units r
  end.

(** QuoteJSONString: the escaped string between two quotes (34). *)
Definition QuoteJSONString (s : list N) : list N :=
  34%N :: escape_units s ++ [34%N].

(** [JSON.stringify] without indentation: no white space is produced.
    Arrays print as [[v1,v2,...]] and objects as [{"k1":v1,...}], members
    in the order of the list. *)
Fixpoint stringify (v : json) : list N :=
  match v with
  | JNull => str "null"
  | JBool true => str "true"
  | JBool false => str "false"
  | JNum m e => NumberToString m e
  | JStr s => QuoteJSONString s
  | JArr items =>
      91%N ::
      match items with
      | [] => [93%N]
      | _ =>
          (fix elems (l : list json) : list N :=
             match l with
             | [] => []
             | x :: l' =>
                 stringify x ++
                 match l' with [] => [93%N] | _ => 44%N :: elems l' end
             end) items
      end
  | JObj members =>
      123%N ::
      match members with
      | [] => [125%N]
      | _ =>
          (fix mems (l : list (list N * json)) : list N :=
             match l with
             | [] => []
             | kv :: l' =>
                 QuoteJSONString (fst kv) ++ 58%N :: stringify (snd kv) ++
                 match l' with [] => [125%N] | _ => 44%N :: mems l' end
             end) members
      end
  end.

(** [JSON.stringify(v)] *)
Definition JSON_stringify (v : json) : list N := stringify v.

(** ** JSON.parse *)

(** JSON white space: tab, line feed, carriage return, space. *)
Definition is_ws (c : N) : bool :=
  (c =? 9)%N || (c =? 10)%N || (c =? 13)%N || (c =? 32)%N.

(** The input without its leading white space. *)
Fixpoint skip_ws (s : list N) : list N :=
  match s with
  | c :: r => if is_ws c then skip_ws r else s
  | [] => []
  end.

(** The decimal digit that a code unit denotes, as the constructor of
    [Decimal.uint]. *)
Definition digit_of (c : N) : option (uint → uint) :=
  if (c =? 48)%N then Some D0
  else if (c =? 49)%N then Some D1
  else if (c =? 50)%N then Some D2
  else if (c =? 51)%N then Some D3
  else if (c =? 52)%N then Some D4
  else if (c =? 53)%N then Some D5
  else if (c =? 54)%N then Some D6
  else if (c =? 55)%N then Some D7
  else if (c =? 56)%N then Some D8
  else if (c =? 57)%N then Some D9
  else None.

(** The longest run of decimal digits at the head of [s]. *)
Fixpoint read_uint (s : list N) : uint * list N :=
  match s with
  | c :: r =>
      match digit_of c with
      | Some d => let '(u, r') := read_uint r in (d u, r')
      | None => (Nil, s)
      end
  | [] => (Nil, [])
  end.

(** The integer part of a JSON number: [0], or a digit from 1 to 9
    followed by digits.  A leading zero ends the integer part. *)
Definition read_int_part (s : list N) : option (uint * list N) :=
  match s with
  | c :: r =>
      if (c =? 48)%N then Some (D0 Nil, r)
      else
        match digit_of c with
        | Some _ => Some (read_uint s)
        | None => None
        end
  | [] => None
  end.

(** An optional fraction: a point (46) followed by at least one digit. *)
Definition read_frac (s : list N) : option (uint * list N) :=
  match s with
  | c :: r =>
      if (c =? 46)%N then
        match read_uint r with
        | (Nil, _) => None
        | (u, r') => Some (u, r')
        end
      else Some (Nil, s)
  | [] => Some (Nil, [])
  end.

(** An optional exponent: [e] (101) or [E] (69), an optional sign
    ([+] is 43, [-] is 45) and at least one digit. *)
Definition read_exp (s : list N) : option (Z * list N) :=
  match s with
  | c :: r =>
      if (c =? 101)%N || (c =? 69)%N then
        let '(neg, r1) :=
          match r with
          | d :: r1 =>
              if (d =? 45)%N then (true, r1)
              else if (d =? 43)%N then (false, r1)
              else (false, r)
          | [] => (false, r)
          end in
        match read_uint r1 with
        | (Nil, _) => None
        | (u, r2) =>
            let x := Z.of_N (N.of_uint u) in
            Some (if neg then (- x)%Z else x, r2)
        end
      else Some (0%Z, s)
  | [] => Some (0%Z, [])
  end.

(** The part of a JSON number after its optional sign: integer part,
    fraction, exponent.  The value is [m * 10^e], with the fraction digits
    moved into [m]. *)
Definition read_magnitude (neg : bool) (s : list N) : option (json * list N) :=
  match read_int_part s with
  | None => None
  | Some (ui, s2) =>
      match read_frac s2 with
      | None => None
      | Some (uf, s3) =>
          match read_exp s3 with
          | None => None
          | Some (x, s4) =>
              let digits := match uf with Nil => ui | _ => Decimal.app ui uf end in
              let n := Z.of_N (N.of_uint digits) in
              Some (JNum (if neg then (- n)%Z else n)
                         (x - Z.of_nat (nb_digits uf))%Z, s4)
          end
      end
  end.

(** A JSON number: an optional minus sign (45), then the magnitude. *)
Definition read_number (s : list N) : option (json * list N) :=
  match s with
  | c :: r => if (c =? 45)%N then read_magnitude true r else read_magnitude false s
  | [] => None
  end.

(** Value of a hexadecimal digit, either case. *)
Definition hex_val (c : N) : option N :=
  if (48 <=? c)%N && (c <=? 57)%N then Some (c - 48)%N
  else if (97 <=? c)%N && (c <=? 102)%N then Some (c - 87)%N
  else if (65 <=? c)%N && (c <=? 70)%N then Some (c - 55)%N
  else None.

(** The code unit of the escape [\u] followed by four digits. *)
Definition hex4 (a b c d : N) : option N :=
  match hex_val a, hex_val b, hex_val c, hex_val d with
  | Some x, Some y, Some z, Some w => Some (((x * 16 + y) * 16 + z) * 16 + w)%N
  | _, _, _, _ => None
  end.

(** The characters of a string after its opening quote, up to and
    including the closing quote.  A raw control character is an error. *)
Fixpoint read_string (s : list N) : option (list N * list N) :=
  match s with
  | [] => None
  | c :: r =>
      if (c =? 34)%N then Some ([], r)
      else if (c =? 92)%N then
        match r with
        | [] => None
        | x :: r1 =>
            let simple (u : N) :=
              match read_string r1 with
              | Some (t, r') => Some (u :: t, r')
              | None => None
              end in
            if (x =? 34)%N then simple 34%N
            else if (x =? 92)%N then simple 92%N
            else if (x =? 47)%N then simple 47%N
            else if (x =? 98)%N then simple 8%N
            else if (x =? 102)%N then simple 12%N
            else if (x =? 110)%N then simple 10%N
            else if (x =? 114)%N then simple 13%N
            else if (x =? 116)%N then simple 9%N
            else if (x =? 117)%N then
              match r1 with
              | h1 :: h2 :: h3 :: h4 :: r2 =>
                  match hex4 h1 h2 h3 h4 with
                  | Some u =>
                      match read_string r2 with
                      | Some (t, r') => Some (u :: t, r')
                      | None => None
                      end
                  | None => None
                  end
              | _ => None
              end
            else None
        end
      else if (c <? 32)%N then None
      else
        match read_string r with
        | Some (t, r') => Some (c :: t, r')
        | None => None
        end
  end.

(** [s] starts with the code units [w]; the rest is returned. *)
Fixpoint expect (w s : list N) : option (list N) :=
  match w with
  | [] => Some s
  | c :: w' =>
      match s with
      | x :: r => if (x =? c)%N then expect w' r else None
      | [] => None
      end
  end.

(** [c] is a decimal digit. *)
Definition is_digit (c : N) : bool :=
  match digit_of c with Some _ => true | None => false end.

(** Recursive descent over the JSON grammar, one function per
    non-terminal.  Each takes the parsers it calls as arguments; the knot
    is tied below by recursion on [fuel]. *)
Definition value_step
    (elements : list N → option (list json * list N))
    (members : list N → option (list (list N * json) * list N))
    (s : list N) : option (json * list N) :=
  match skip_ws s with
  | [] => None
  | c :: r =>
      if (c =? 45)%N || is_digit c then read_number (c :: r)
      else if (c =? 34)%N then
        match read_string r with
        | Some (t, r') => Some (JStr t, r')
        | None => None
        end
      else if (c =? 110)%N then
        match expect (str "ull") r with
        | Some r' => Some (JNull, r')
        | None => None
        end
      else if (c =? 116)%N then
        match expect (str "rue") r with
        | Some r' => Some (JBool true, r')
        | None => None
        end
      else if (c =? 102)%N then
        match expect (str "alse") r with
        | Some r' => Some (JBool false, r')
        | None => None
        end
      else if (c =? 91)%N then
        match skip_ws r with
        | x :: r' =>
            if (x =? 93)%N then Some (JArr [], r')
            else
              match elements r with
              | Some (items, r'') => Some (JArr items, r'')
              | None => None
              end
        | [] => None
        end
      else if (c =? 123)%N then
        match skip_ws r with
        | x :: r' =>
            if (x =? 125)%N then Some (JObj [], r')
            else
              match members r with
              | Some (ms, r'') => Some (JObj ms, r'')
              | None => None
              end
        | [] => None
        end
      else None
  end.

(** One or more values separated by commas (44), then the closing
    bracket (93). *)
Definition elements_step
    (value : list N → option (json * list N))
    (elements : list N → option (list json * list N))
    (s : list N) : option (list json * list N) :=
  match value s with
  | Some (v, r) =>
      match skip_ws r with
      | x :: r' =>
          if (x =? 44)%N then
            match elements r' with
            | Some (vs, r'') => Some (v :: vs, r'')
            | None => None
            end
          else if (x =? 93)%N then Some ([v], r')
          else None
      | [] => None
      end
  | None => None
  end.

(** One or more [string : value] members separated by commas, then the
    closing brace (125). *)
Definition members_step
    (value : list N → option (json * list N))
    (members : list N → option (list (list N * json) * list N))
    (s : list N) : option (list (list N * json) * list N) :=
  match skip_ws s with
  | q :: r =>
      if (q =? 34)%N then
        match read_string r with
        | Some (k, r1) =>
            match skip_ws r1 with
            | y :: r2 =>
                if (y =? 58)%N then
                  match value r2 with
                  | Some (v, r3) =>
                      match skip_ws r3 with
                      | z :: r4 =>
                          if (z =? 44)%N then
                            match members r4 with
                            | Some (ms, r5) => Some ((k, v) :: ms, r5)
                            | None => None
                            end
                          else if (z =? 125)%N then Some ([(k, v)], r4)
                          else None
                      | [] => None
                      end
                  | None => None
                  end
                else None
            | [] => None
            end
        | None => None
        end
      else None
  | [] => None
  end.

(** The three parsers.  Without fuel they fail; [JSON_parse] gives
    enough (see [parse_value_fuel_enough]). *)
Fixpoint parse_value (fuel : nat) (s : list N) : option (json * list N) :=
  match fuel with
  | O => None
  | S fuel' => value_step (parse_elements fuel') (parse_members fuel') s
  end

with parse_elements (fuel : nat) (s : list N) : option (list json * list N) :=
  match fuel with
  | O => None
  | S fuel' => elements_step (parse_value fuel') (parse_elements fuel') s
  end

with parse_members (fuel : nat) (s : list N)
    : option (list (list N * json) * list N) :=
  match fuel with
  | O => None
  | S fuel' => members_step (parse_value fuel') (parse_members fuel') s
  end.

(** [JSON.parse]: one value, white space allowed around it, nothing else.
    [None] stands for the SyntaxError the host throws. *)
Definition JSON_parse (s : list N) : option json :=
  match parse_value (2 * length s + 1) s with
  | Some (v, r) => match skip_ws r with [] => Some v | _ => None end
  | None => None
  end.

(** ** Notions for the proofs about the parser *)

(** What may follow a printed value: the end, a comma, or a closing
    bracket or brace. *)
Definition terminated (rest : list N) : Prop :=
  match rest with
  | [] => True
  | c :: _ => c = 44%N ∨ c = 93%N ∨ c = 125%N
  end.

(** [rest] does not go on with a decimal digit. *)
Definition no_digit_ahead (rest : list N) : Prop :=
  match rest with
  | [] => True
  | c :: _ => digit_of c = None
  end.

(** The print of the elements of a non-empty array, closing bracket
    included: the local function [elems] of [stringify]. *)
Fixpoint stringify_elems (l : list json) : list N :=
  match l with
  | [] => []
  | x :: l' =>
      stringify x ++ match l' with [] => [93%N] | _ => 44%N :: stringify_elems l' end
  end.

(** The print of the members of a non-empty object, closing brace
    included: the local function [mems] of [stringify]. *)
Fixpoint stringify_members (l : list (list N * json)) : list N :=
  match l with
  | [] => []
  | kv :: l' =>
      QuoteJSONString (fst kv) ++ 58%N :: stringify (snd kv) ++
      match l' with [] => [125%N] | _ => 44%N :: stringify_members l' end
  end.

(** [v] is read back from its print, whatever follows it, by a parser
    with fuel for twice the length of the print. *)
Definition value_ok (v : json) : Prop :=
  ∀ fuel rest,
    terminated rest →
    2 * length (stringify v) + 1 ≤ fuel →
    parse_value fuel (stringify v ++ rest) = Some (v, rest).

(** A parser never returns more input than it was given. *)
Definition shrinks {A} (f : list N → option (A * list N)) : Prop :=
  ∀ s a r, f s = Some (a, r) → length r ≤ length s.

(** Two parsers agree on the inputs shorter than [n]. *)
Definition agree_below {A} (n : nat) (f g : list N → option (A * list N)) : Prop :=
  ∀ s, length s < n → f s = g s.

(** * The program *)

(** ** JavaScript values *)

(** A value handled by the instance as event type, data or raw event:
    [undefined], or a value of the JSON universe (a string received from
    the peer is [JStr]). *)
Inductive value : Type :=
| Undefined
| Val (j : json).

(** [null] *)
Definition null : value := Val JNull.

(** ToBoolean, as used by [x || d] and [!x]. *)
Definition truthy (v : value) : bool :=
  match v with
  | Undefined => false
  | Val JNull => false
  | Val (JBool b) => b
  | Val (JNum m _) => negb (m =? 0)%Z
  | Val (JStr s) => match s with [] => false | _ => true end
  | Val (JArr _) => true
  | Val (JObj _) => true
  end.

(** [x || d] *)
Definition or_else (x d : value) : value := if truthy x then x else d.

(** [typeof v === 'object']: null, arrays and objects. *)
Definition typeof_object (v : value) : bool :=
  match v with
  | Val JNull | Val (JArr _) | Val (JObj _) => true
  | _ => false
  end.

(** The errors that can be raised. *)
Inductive exn : Type :=
| IncorrectDataType   (* TypeError('incorrect data type. Should be an Object') *)
| HostTypeError       (* TypeError of the host: a property of undefined or null *)
| SyntaxError.        (* of JSON.parse *)

(** The result of an expression that may throw. *)
Inductive result (A : Type) : Type :=
| Ok (a : A)
| Throw (e : exn).
Arguments Ok {A} a.
Arguments Throw {A} e.

(** The member [k] of an object: the last one of that name wins, as for
    the object [JSON.parse] builds. *)
Fixpoint member (k : list N) (ms : list (list N * json)) : option json :=
  match ms with
  | [] => None
  | (k', v) :: r =>
      match member k r with
      | Some v' => Some v'
      | None => if decide (k = k') then Some v else None
      end
  end.

(** [v.name] for the names this program reads ([type], [data],
    [connectionID]): a TypeError on undefined and null, the member of an
    object, and undefined on arrays, strings, numbers and booleans, which
    have no property of these names. *)
Definition get (v : value) (name : list N) : result value :=
  match v with
  | Undefined | Val JNull => Throw HostTypeError
  | Val (JObj ms) =>
      Ok (match member name ms with Some x => Val x | None => Undefined end)
  | Val _ => Ok Undefined
  end.

(** The value of [obj.name] for an object with the members [ms]. *)
Definition field (ms : list (list N * json)) (name : list N) : value :=
  match member name ms with Some x => Val x | None => Undefined end.

(** ToString of a JSON value, as a property key: [Array.prototype.join]
    turns null elements into the empty string. *)
Fixpoint ToString (j : json) : list N :=
  match j with
  | JNull => str "null"
  | JBool true => str "true"
  | JBool false => str "false"
  | JNum m e => NumberToString m e
  | JStr s => s
  | JArr items =>
      (fix join (l : list json) : list N :=
         match l with
         | [] => []
         | x :: l' =>
             match x with JNull => [] | _ => ToString x end ++
             match l' with [] => [] | _ => 44%N :: join l' end
         end) items
  | JObj _ => str "[object Object]"
  end.

(** ToPropertyKey: the name under which [obj[v]] looks. *)
Definition ToPropertyKey (v : value) : list N :=
  match v with
  | Undefined => str "undefined"
  | Val j => ToString j
  end.

(** ** The instance and its effects *)

(** A window, as far as identity goes. *)
Inductive peer : Type :=
| PUndefined
| PNull
| PWindow (w : nat).

Global Instance peer_eq_dec : EqDecision peer.
Proof. solve_decision. Defined.

(** Identity of the heap objects that [_offCallback] compares: the
    functions given by the caller and the record literals allocated by
    [on]. *)
Inductive objref : Type :=
| FunRef (f : nat)
| RecRef (r : nat).

Global Instance objref_eq_dec : EqDecision objref.
Proof. solve_decision. Defined.

(** The record pushed by [on].  [oid] is the identity of the record
    object itself; it is not a property. *)
Record subscription : Type := {
  callback : nat;
  context : option nat;
  once : bool;
  oid : nat
}.

(** [InternalEvent]: the constructor copies the three settings. *)
Record InternalEvent : Type := {
  type : value;
  data : value;
  rawEvent : value
}.

(** The event of the host, as far as [_receive] reads it. *)
Module MessageEvent.
Record t : Type := { source : peer; data : list N }.
End MessageEvent.

(** The settings given to the constructor and to [set]; [None] is an
    absent property. *)
Record settings : Type := {
  targetWindow : peer;
  targetOrigin : option (list N);
  connectionID : option (list N)
}.

(** The fields of an instance.  [_connectionID] is a string or null
    ([None]). *)
Record PMS : Type := {
  _targetWindow : peer;
  _targetOrigin : list N;
  _connectionID : option (list N);
  _callbacks : gmap (list N) (list subscription);
  allocated : nat   (* number of record objects allocated so far *)
}.

(** What the instance does to the outside. *)
Inductive effect : Type :=
| Call (callback : nat) (this : option nat) (e : InternalEvent)
| PostMessage (target : nat) (message : list N) (targetOrigin : list N).

(** The instance together with the effects so far, oldest first, and the
    [lastIndex] of [_splitRegExp].  The regular expression is one object
    on the prototype: what a call leaves in its [lastIndex] is what the
    next call finds. *)
Record world : Type := { this : PMS; log : list effect; lastIndex : nat }.

(** A method call returns or throws; either way it leaves a world. *)
Inductive outcome : Type :=
| Returned (w : world)
| Thrown (e : exn) (w : world).

(** A method call, or a statement of a method body. *)
Definition cmd : Type := world → outcome.

(** The empty statement. *)
Definition ret : cmd := Returned.

(** [c1; c2]: the second statement is not reached when the first
    throws. *)
Definition seq (c1 c2 : cmd) : cmd :=
  λ w, match c1 w with
       | Returned w' => c2 w'
       | Thrown e w' => Thrown e w'
       end.
Infix ">>" := seq (at level 62, right associativity).

(** One more effect in the log. *)
Definition emit (x : effect) : cmd :=
  λ w, Returned {| this := this w; log := log w ++ [x];
                   lastIndex := lastIndex w |}.

(** The world with another instance. *)
Definition with_this (p : PMS) (w : world) : world :=
  {| this := p; log := log w; lastIndex := lastIndex w |}.

(** The world with another [lastIndex]. *)
Definition with_lastIndex (i : nat) (w : world) : world :=
  {| this := this w; log := log w; lastIndex := i |}.

(** The instance with [_callbacks] replaced. *)
Definition with_callbacks (m : gmap (list N) (list subscription)) (p : PMS) : PMS :=
  {| _targetWindow := _targetWindow p;
     _targetOrigin := _targetOrigin p;
     _connectionID := _connectionID p;
     _callbacks := m;
     allocated := allocated p |}.

(** The world a call leaves. *)
Definition world_of (w : outcome) : world :=
  match w with Returned w | Thrown _ w => w end.

(** ** Settings *)

(** [PMS.prototype.set]: [sets || {}], then the three fields; an absent or
    empty [targetOrigin] becomes ['*'], an absent or empty [connectionID]
    becomes null.  [_callbacks] is not assigned. *)
Definition set (sets : option settings) : cmd :=
  λ w,
    let sets :=
      match sets with
      | Some s => s
      | None => {| targetWindow := PUndefined; targetOrigin := None;
                   connectionID := None |}
      end in
    Returned
      {| this :=
           {| _targetWindow := targetWindow sets;
              _targetOrigin :=
                match targetOrigin sets with
                | Some (c :: o) => c :: o
                | _ => str "*"
                end;
              _connectionID :=
                match connectionID sets with
                | Some (c :: i) => Some (c :: i)
                | _ => None
                end;
              _callbacks := _callbacks (this w);
              allocated := allocated (this w) |};
         log := log w;
         lastIndex := lastIndex w |}.

(** The constructor: [this.set(sets); this._callbacks = {}].  The
    registration of [_receive] with the host ([_listen]) has no effect on
    the instance.  The world is the one of a page just loaded: nothing
    logged, the regular expression at rest. *)
Definition PMS_new (sets : option settings) : world :=
  let blank :=
    {| this := {| _targetWindow := PUndefined; _targetOrigin := [];
                  _connectionID := None; _callbacks := ∅; allocated := 0 |};
       log := []; lastIndex := 0 |} in
  let w := world_of (set sets blank) in
  with_this (with_callbacks ∅ (this w)) w.

(** ** Outbound *)

(** [this._targetWindow.postMessage(message, this._targetOrigin)] *)
Definition postMessage (message : list N) : cmd :=
  λ w,
    match _targetWindow (this w) with
    | PWindow t => emit (PostMessage t message (_targetOrigin (this w))) w
    | PUndefined | PNull => Thrown HostTypeError w
    end.

(** The object literal built by [send], members in source order. *)
Definition message_of (cid : option (list N)) (data : json) (type : list N) : json :=
  JObj [(str "connectionID", match cid with Some i => JStr i | None => JNull end);
        (str "data", data);
        (str "type", JStr type)].

(** [PMS.prototype.send].  After [data || null] the data is never
    undefined; that case of the match is not reached. *)
Definition send (type : list N) (data : value) : cmd :=
  λ w,
    let data := or_else data null in
    if typeof_object data then
      match data with
      | Val d =>
          postMessage
            (JSON_stringify (message_of (_connectionID (this w)) d type)) w
      | Undefined => Thrown IncorrectDataType w
      end
    else Thrown IncorrectDataType w.

(** [PMS.prototype.sendRAW].  After [message || null] the message is
    never undefined. *)
Definition sendRAW (message : value) : cmd :=
  λ w,
    match or_else message null with
    | Val m => postMessage (JSON_stringify m) w
    | Undefined => Returned w
    end.

(** ** The event router *)

(** White space of the regular expression class [\s]. *)
Definition is_space (c : N) : bool :=
  ((9 <=? c)%N && (c <=? 13)%N) || (c =? 32)%N || (c =? 160)%N
  || (c =? 5760)%N || ((8192 <=? c)%N && (c <=? 8202)%N)
  || (c =? 8232)%N || (c =? 8233)%N || (c =? 8239)%N || (c =? 8287)%N
  || (c =? 12288)%N || (c =? 65279)%N.

(** The successive matches of [_splitRegExp], [/[^,\s]+/g], in a string:
    the maximal runs of code units that are neither a comma (44) nor
    white space.  [cur] is the run being read, reversed. *)
Fixpoint matches_from (cur : list N) (s : list N) : list (list N) :=
  match s with
  | [] => match cur with [] => [] | _ => [rev cur] end
  | c :: r =>
      if (c =? 44)%N || is_space c then
        match cur with
        | [] => matches_from [] r
        | _ => rev cur :: matches_from [] r
        end
      else matches_from (c :: cur) r
  end.

(** [_splitRegExp]: all the matches in [s], from the start. *)
Definition _splitRegExp (s : list N) : list (list N) := matches_from [] s.

(** The successive matches of [_splitRegExp] in [s], each with the
    index just after it, which [exec] stores in [lastIndex].  [i] is the
    index of the head of [s]. *)
Fixpoint matches_at (cur : list N) (i : nat) (s : list N)
    : list (list N * nat) :=
  match s with
  | [] => match cur with [] => [] | _ => [(rev cur, i)] end
  | c :: r =>
      if (c =? 44)%N || is_space c then
        match cur with
        | [] => matches_at [] (S i) r
        | _ => (rev cur, i) :: matches_at [] (S i) r
        end
      else matches_at (c :: cur) (S i) r
  end.

(** The names of the members of [Object.prototype], standard and legacy:
    a plain object such as [_callbacks] has a value under each of them
    without having a property of its own.  All are functions, but for
    [__proto__], which reads as the prototype object. *)
Definition Object_prototype_names : list (list N) :=
  [str "constructor"; str "hasOwnProperty"; str "isPrototypeOf";
   str "propertyIsEnumerable"; str "toLocaleString"; str "toString";
   str "valueOf"; str "__proto__"; str "__defineGetter__";
   str "__defineSetter__"; str "__lookupGetter__"; str "__lookupSetter__"].

(** [k] names an inherited member. *)
Definition inherited (k : list N) : bool :=
  bool_decide (k ∈ Object_prototype_names).

(** What [this._callbacks[k]] reads: nothing, an array of records, or
    something else that is truthy and no array. *)
Inductive property : Type :=
| Absent
| Array (a : list subscription)
| NotArray.

(** [this._callbacks[k]]: the own property, or else the inherited
    member. *)
Definition read_callbacks (p : PMS) (k : list N) : property :=
  match _callbacks p !! k with
  | Some a => Array a
  | None => if inherited k then NotArray else Absent
  end.

(** The body of the loop of [on]:
    [this._callbacks[eName] = this._callbacks[eName] || [];
     this._callbacks[eName].push({callback, context, once})].
    Under an inherited name the first statement finds the inherited
    member and stores it back (a later read finds the same value, as own
    property or as inherited one: the registry keeps no entry for it);
    that value has no [push], and calling it throws. *)
Definition push (eName : list N) (callback : nat) (context : option nat)
    (_once : bool) : cmd :=
  λ w,
    let p := this w in
    let record := {| callback := callback; context := context;
                     once := _once; oid := allocated p |} in
    let pushed (array : list subscription) :=
      Returned
        (with_this
           {| _targetWindow := _targetWindow p;
              _targetOrigin := _targetOrigin p;
              _connectionID := _connectionID p;
              _callbacks := <[eName := array ++ [record]]> (_callbacks p);
              allocated := S (allocated p) |} w) in
    match read_callbacks p eName with
    | Array array => pushed array
    | Absent => pushed []
    | NotArray => Thrown HostTypeError w
    end.

(** The rest of a loop [while ((typeArr = this._splitRegExp.exec(type)))
    { body }], given the matches still to come: [exec] leaves the end of
    the match in [lastIndex] before the body runs, and resets it to 0
    when it finds no more match.  When the body throws, the loop is left
    with [lastIndex] where it is. *)
Fixpoint loop (ms : list (list N * nat)) (body : list N → cmd) : cmd :=
  λ w,
    match ms with
    | [] => Returned (with_lastIndex 0 w)
    | (eName, i) :: rest =>
        match body eName (with_lastIndex i w) with
        | Returned w' => loop rest body w'
        | Thrown x w' => Thrown x w'
        end
    end.

(** [while ((typeArr = this._splitRegExp.exec(type))) { body }]: the
    scan starts at the [lastIndex] found (beyond the end of the string
    there is no match). *)
Definition while_exec (type : list N) (body : list N → cmd) : cmd :=
  λ w,
    loop (matches_at [] (lastIndex w) (drop (lastIndex w) type)) body w.

(** [PMS.prototype.on] *)
Definition on (type : list N) (callback : nat) (context : option nat)
    (_once : bool) : cmd :=
  while_exec type (λ eName, push eName callback context _once).

(** [PMS.prototype.once] ([once] alone names the property of the
    records). *)
Definition once_ (type : list N) (callback : nat) (context : option nat) : cmd :=
  on type callback context true.

(** [callbacks.some(function(clbk, i){
       return !!(callback === clbk && callbacks.splice(i, 1)); })]:
    the first element identical to [callback] is removed and the scan
    stops.  The elements are the records. *)
Fixpoint some_splice (callback : objref) (callbacks : list subscription)
    : list subscription :=
  match callbacks with
  | [] => []
  | clbk :: r =>
      if decide (callback = RecRef (oid clbk)) then r
      else clbk :: some_splice callback r
  end.

(** [PMS.prototype._offCallback].  Under an inherited name [callbacks]
    is truthy and has no [some]: the call throws. *)
Definition _offCallback (type : value) (callback : nat) : cmd :=
  λ w,
    match read_callbacks (this w) (ToPropertyKey type) with
    | Array callbacks =>
        Returned
          (with_this
             (with_callbacks
                (<[ToPropertyKey type := some_splice (FunRef callback) callbacks]>
                   (_callbacks (this w)))
                (this w)) w)
    | NotArray => Thrown HostTypeError w
    | Absent => Returned w
    end.

(** [PMS.prototype._off] *)
Definition _off (type : value) : cmd :=
  λ w,
    Returned
      (with_this
         (with_callbacks (delete (ToPropertyKey type) (_callbacks (this w)))
            (this w)) w).

(** [Array.prototype.forEach] over the array stored under [key]: the
    length is read once, then each index below it is visited if the array
    still has it, reading the array as it is at that moment. *)
Fixpoint forEach (n k : nat) (key : list N) (body : subscription → cmd) : cmd :=
  λ w,
    match n with
    | O => Returned w
    | S n' =>
        match _callbacks (this w) !! key ≫= (λ a, a !! k) with
        | Some item => (body item >> forEach n' (S k) key body) w
        | None => forEach n' (S k) key body w
        end
    end.

(** The function given to [forEach] by [_fire].  A record has the
    properties [callback], [context] and [once]: [item.type] is
    undefined. *)
Definition fire_item (e : InternalEvent) (item : subscription) : cmd :=
  (match context item with
   | None => emit (Call (callback item) None e)
   | Some c => emit (Call (callback item) (Some c) e)
   end) >>
  (if once item then _offCallback Undefined (callback item) else ret).

(** [PMS.prototype._fire].  The array [callbacks] is named by its key in
    [_callbacks].  What is not an array has no [forEach]: the call
    throws. *)
Definition _fire (e : InternalEvent) (callbacks : list N) : cmd :=
  λ w,
    match read_callbacks (this w) callbacks with
    | Array a => forEach (length a) 0 callbacks (fire_item e) w
    | NotArray | Absent => Thrown HostTypeError w
    end.

(** [PMS.prototype.trigger].  Both properties are read before anything
    is fired; whatever is truthy is given to [_fire]. *)
Definition trigger (type data rawEvent : value) : cmd :=
  λ w,
    let data := or_else data null in
    let callbacks := read_callbacks (this w) (ToPropertyKey type) in
    let all := read_callbacks (this w) (str "all") in
    let e := {| type := type; data := data; rawEvent := rawEvent |} in
    ((match callbacks with
      | Array _ | NotArray => _fire e (ToPropertyKey type)
      | Absent => ret
      end) >>
     (match all with
      | Array _ | NotArray => _fire e (str "all")
      | Absent => ret
      end)) w.

(** [PMS.prototype.off] *)
Definition off (type : option (list N)) (callback : option nat) : cmd :=
  match type with
  | Some (c :: t) =>
      while_exec (c :: t)
        (λ eName,
           match callback with
           | Some f => _offCallback (Val (JStr eName)) f
           | None => _off (Val (JStr eName))
           end)
  | _ => λ w, Returned (with_this (with_callbacks ∅ (this w)) w)
  end.

(** ** Inbound *)

(** The variables after the [try] statement of [_processMessage].
    [parsed] keeps what [JSON.parse] returned, also when reading
    [parsed.type] threw; it is undefined when [JSON.parse] threw. *)
Record decoded : Type := {
  d_parsed : value;
  d_type : value;
  d_data : value;
  d_rawEvent : value
}.

(** The [try] statement of [_processMessage]: when [JSON.parse] or
    the reading of [parsed.type] throws, the [catch] block sets the raw
    event to the payload, the type to ['message'] and the data to
    null. *)
Definition try_decode (postJSON : list N) : decoded :=
  let parsed :=
    match JSON_parse postJSON with
    | Some j => Val j
    | None => Undefined
    end in
  let body : result (value * value) :=
    match JSON_parse postJSON with
    | Some j =>
        match get (Val j) (str "type") with
        | Ok t =>
            match get (Val j) (str "data") with
            | Ok d => Ok (t, d)
            | Throw x => Throw x
            end
        | Throw x => Throw x
        end
    | None => Throw SyntaxError
    end in
  match body with
  | Ok (t, d) =>
      {| d_parsed := parsed; d_type := t; d_data := d; d_rawEvent := parsed |}
  | Throw _ =>
      {| d_parsed := parsed; d_type := Val (JStr (str "message"));
         d_data := null; d_rawEvent := Val (JStr postJSON) |}
  end.

(** [id === v] for a string [id]: true exactly when [v] is the same
    string. *)
Definition strict_equals_string (id : list N) (v : value) : bool :=
  match v with
  | Val (JStr s) => bool_decide (id = s)
  | _ => false
  end.

(** [PMS.prototype._processMessage] *)
Definition _processMessage (postJSON : list N) : cmd :=
  λ w,
    let d := try_decode postJSON in
    match _connectionID (this w) with
    | None => trigger (d_type d) (d_data d) (d_rawEvent d) w
    | Some id =>
        match get (d_parsed d) (str "connectionID") with
        | Ok remote =>
            if strict_equals_string id remote
            then trigger (d_type d) (d_data d) (d_rawEvent d) w
            else Returned w
        | Throw x => Thrown x w
        end
    end.

(** [PMS.prototype._receive] *)
Definition _receive (e : MessageEvent.t) : cmd :=
  λ w,
    if decide (MessageEvent.source e = _targetWindow (this w))
    then _processMessage (MessageEvent.data e) w
    else Returned w.

(** ** Notions for the properties of the router *)

(** The subscribers stored under a name, in the order of registration. *)
Definition subscribers (p : PMS) (eName : list N) : list subscription :=
  match _callbacks p !! eName with
  | Some a => a
  | None => []
  end.

(** The call that firing [item] with [e] makes. *)
Definition invocation (e : InternalEvent) (item : subscription) : effect :=
  Call (callback item) (context item) e.

(** The world after more effects. *)
Definition logged (w : world) (xs : list effect) : world :=
  {| this := this w; log := log w ++ xs; lastIndex := lastIndex w |}.

(** ** Worlds and messages used as concrete inputs *)

(** Settings with the connectionID [svc1]. *)
Definition svc1 : option settings :=
  Some {| targetWindow := PWindow 1; targetOrigin := None;
          connectionID := Some (str "svc1") |}.

(** Settings without connectionID. *)
Definition open_settings : option settings :=
  Some {| targetWindow := PWindow 1; targetOrigin := None;
          connectionID := None |}.

(** An instance with connectionID [svc1] and callback 7 registered under
    [hello], [message], [undefined] and the wildcard [all]. *)
Definition svc1_world : world :=
  world_of (on (str "hello message undefined all") 7 None false (PMS_new svc1)).

(** The same registrations on an instance without connectionID. *)
Definition open_world : world :=
  world_of (on (str "hello message undefined all") 7 None false
              (PMS_new open_settings)).

(** The wire string of [hello] with data [{a:1}] from a peer whose
    connectionID is [id]. *)
Definition hello_from (id : list N) : list N :=
  JSON_stringify
    (message_of (Some id) (JObj [(str "a", JNum 1 0)]) (str "hello")).

(** Its members once decoded. *)
Definition hello_members (id : list N) : list (list N * json) :=
  [(str "connectionID", JStr id);
   (str "data", JObj [(str "a", JNum 1 0)]);
   (str "type", JStr (str "hello"))].

(** ** The connection filter, in the words of the specification *)

(** [accepts]: true if the local connectionID is absent, or equal to the
    remote one. *)
Definition accepts (local : option (list N)) (remote : value) : bool :=
  match local with
  | None => true
  | Some id =>
      match remote with
      | Val (JStr s) => bool_decide (id = s)
      | _ => false
      end
  end.

(** ** Notions for the further properties *)

(** A code unit that [_splitRegExp] does not match: a comma or white
    space. *)
Definition separator (c : N) : bool := (c =? 44)%N || is_space c.

(** The properties of a record: callback, context, once. *)
Definition shape (item : subscription) : nat * option nat * bool :=
  (callback item, context item, once item).

(** Every name of [_callbacks] is non-empty and free of separators. *)
Definition names_plain (p : PMS) : Prop :=
  ∀ k a, _callbacks p !! k = Some a →
         k ≠ [] ∧ Forall (λ c, separator c = false) k.

(** The connectionID as it travels in the envelope. *)
Definition json_of_id (id : option (list N)) : json :=
  match id with Some i => JStr i | None => JNull end.

(** No own array sits under a name that [Object.prototype] has. *)
Definition no_inherited_array (p : PMS) : Prop :=
  ∀ k, inherited k = true → _callbacks p !! k = None.

(** * The built-ins: properties *)

(** ** The printer and the parser are inverse *)

Lemma terminated_no_digit rest : terminated rest → no_digit_ahead rest.
Proof.
  destruct rest as [|c r]; simpl; [done|].
  intros [-> | [-> | ->]]; reflexivity.
Qed.

Lemma read_uint_print u rest :
  no_digit_ahead rest → read_uint (print_uint u ++ rest) = (u, rest).
Proof.
  intros Hrest.
  induction u; simpl; try (rewrite IHu; reflexivity).
  destruct rest as [|c r]; simpl in *; [done|].
  by rewrite Hrest.
Qed.

Lemma to_uint_normal n : unorm (N.to_uint n) = N.to_uint n.
Proof.
  rewrite <- (DecimalN.Unsigned.of_to n) at 2.
  by rewrite DecimalN.Unsigned.to_of.
Qed.

Lemma to_uint_not_nil n : N.to_uint n ≠ Nil.
Proof. rewrite <- to_uint_normal. apply unorm_nonnil. Qed.

Lemma to_uint_leading_zero n u : N.to_uint n = D0 u → u = Nil.
Proof.
  intros Hn.
  pose proof (to_uint_normal n) as Hnorm.
  rewrite Hn in Hnorm. unfold unorm in Hnorm.
  pose proof (nzhead_nonzero (D0 u) u) as Hnz.
  destruct (nzhead (D0 u)) eqn:Hhd; try congruence.
Qed.

(** The digits of [n] start with a digit, hence neither with a sign nor
    with a quote or a bracket. *)
Lemma print_N_head n :
  ∃ c r, print_N n = c :: r ∧ is_digit c = true.
Proof.
  unfold print_N.
  pose proof (to_uint_not_nil n) as Hnil.
  destruct (N.to_uint n); try done; simpl; eauto.
Qed.

Lemma is_digit_not_sign c :
  is_digit c = true → (c =? 45)%N = false ∧ (c =? 43)%N = false.
Proof.
  unfold is_digit, digit_of.
  repeat match goal with
         | |- context [(c =? ?k)%N] =>
             destruct (N.eqb_spec c k) as [->|_]; [by split|]
         end.
  done.
Qed.

Lemma read_int_part_print n rest :
  no_digit_ahead rest →
  read_int_part (print_N n ++ rest) = Some (N.to_uint n, rest).
Proof.
  intros Hrest. unfold print_N.
  pose proof (to_uint_not_nil n) as Hnil.
  pose proof (to_uint_leading_zero n) as Hzero.
  pose proof (read_uint_print (N.to_uint n) rest Hrest) as Hread.
  destruct (N.to_uint n) as [|u|u|u|u|u|u|u|u|u|u]; try done;
    try (unfold read_int_part; simpl print_uint; simpl app;
         simpl in Hread; simpl; by rewrite Hread).
  rewrite (Hzero u eq_refl). reflexivity.
Qed.

Lemma read_uint_print_N n rest :
  no_digit_ahead rest →
  ∃ u, read_uint (print_N n ++ rest) = (u, rest) ∧ u ≠ Nil ∧ N.of_uint u = n.
Proof.
  intros Hrest. exists (N.to_uint n). split; [|split].
  - by apply read_uint_print.
  - apply to_uint_not_nil.
  - apply DecimalN.Unsigned.of_to.
Qed.

Lemma Z_sign_abs (z : Z) :
  (if (z <? 0)%Z then (- Z.of_N (Z.abs_N z))%Z else Z.of_N (Z.abs_N z)) = z.
Proof. destruct (Z.ltb_spec z 0); lia. Qed.

Lemma read_exp_print e rest :
  terminated rest →
  read_exp ((if (e =? 0)%Z then [] else 101%N :: print_Z e) ++ rest)
  = Some (e, rest).
Proof.
  intros Hrest.
  destruct (Z.eqb_spec e 0) as [->|Hne].
  - destruct rest as [|c r]; simpl; [done|].
    destruct Hrest as [-> | [-> | ->]]; reflexivity.
  - unfold print_Z.
    destruct (read_uint_print_N (Z.abs_N e) rest (terminated_no_digit _ Hrest))
      as (u & Hread & Hnil & Hval).
    destruct (print_N_head (Z.abs_N e)) as (c & r & Hhead & Hdig).
    apply is_digit_not_sign in Hdig as [Hminus Hplus].
    pose proof (Z_sign_abs e) as Hsign.
    destruct (Z.ltb_spec e 0) as [Hneg|Hpos].
    + cbn -[read_uint]. rewrite Hread.
      destruct u; try done; by rewrite Hval, Hsign.
    + rewrite Hhead in Hread |- *. cbn [app] in Hread. cbn -[read_uint].
      rewrite Hminus, Hplus, Hread.
      destruct u; try done; by rewrite Hval, Hsign.
Qed.

Lemma read_frac_none s :
  match s with [] => True | c :: _ => c ≠ 46%N end →
  read_frac s = Some (Nil, s).
Proof.
  destruct s as [|c r]; simpl; [done|].
  intros Hc. by destruct (N.eqb_spec c 46).
Qed.

Lemma read_number_print m e rest :
  terminated rest →
  read_number (NumberToString m e ++ rest) = Some (JNum m e, rest).
Proof.
  intros Hrest. unfold NumberToString. rewrite <- app_assoc.
  set (tail := (if (e =? 0)%Z then [] else 101%N :: print_Z e) ++ rest).
  unfold print_Z.
  assert (Htail : no_digit_ahead tail ∧
                  match tail with [] => True | c :: _ => c ≠ 46%N end).
  { subst tail. destruct (e =? 0)%Z; simpl; [|done].
    split; [by apply terminated_no_digit|].
    destruct rest as [|c r]; [done|].
    destruct Hrest as [-> | [-> | ->]]; done. }
  destruct Htail as [Hnd Hdot].
  assert (Hbody : ∀ neg,
    read_magnitude neg (print_N (Z.abs_N m) ++ tail)
    = Some (JNum (if neg then (- Z.of_N (Z.abs_N m))%Z
                  else Z.of_N (Z.abs_N m)) e, rest)).
  { intros neg. unfold read_magnitude.
    rewrite read_int_part_print by done.
    rewrite read_frac_none by done.
    subst tail. rewrite read_exp_print by done. simpl.
    rewrite DecimalN.Unsigned.of_to. do 3 f_equal. lia. }
  pose proof (Z_sign_abs m) as Hsign.
  rewrite <- app_assoc.
  destruct (Z.ltb_spec m 0) as [Hneg|Hpos].
  - cbn -[read_magnitude]. rewrite (Hbody true). by rewrite Hsign.
  - cbn [app]. destruct (print_N_head (Z.abs_N m)) as (c & r & Hhead & Hdig).
    apply is_digit_not_sign in Hdig as [Hminus _].
    specialize (Hbody false). rewrite Hhead in Hbody |- *.
    cbn [app] in Hbody |- *. unfold read_number.
    rewrite Hminus, Hbody. by rewrite Hsign.
Qed.

Lemma hex4_control c :
  (c < 32)%N →
  hex4 48 48 (hex_digit (c / 16)) (hex_digit (c mod 16)) = Some c.
Proof.
  intros Hc. destruct c as [|p]; [reflexivity|].
  do 5 (destruct p as [p|p|]; try reflexivity; try lia).
Qed.

Lemma read_string_escape s rest :
  read_string (escape_units s ++ 34%N :: rest) = Some (s, rest).
Proof.
  induction s as [|c s IH]; [reflexivity|].
  cbn [escape_units]. rewrite <- app_assoc. unfold escape_unit.
  destruct (N.eqb_spec c 34) as [->|H34]; [simpl; by rewrite IH|].
  destruct (N.eqb_spec c 92) as [->|H92]; [simpl; by rewrite IH|].
  destruct (N.eqb_spec c 8) as [->|H8]; [simpl; by rewrite IH|].
  destruct (N.eqb_spec c 12) as [->|H12]; [simpl; by rewrite IH|].
  destruct (N.eqb_spec c 10) as [->|H10]; [simpl; by rewrite IH|].
  destruct (N.eqb_spec c 13) as [->|H13]; [simpl; by rewrite IH|].
  destruct (N.eqb_spec c 9) as [->|H9]; [simpl; by rewrite IH|].
  destruct (N.ltb_spec c 32) as [Hlow|Hhigh].
  - cbn [app read_string]. cbn [N.eqb Pos.eqb].
    rewrite (hex4_control c Hlow). by rewrite IH.
  - cbn [app read_string].
    rewrite (proj2 (N.eqb_neq c 34) H34), (proj2 (N.eqb_neq c 92) H92).
    rewrite (proj2 (N.ltb_ge c 32) Hhigh). by rewrite IH.
Qed.

Lemma read_string_quote s rest :
  ∃ r, QuoteJSONString s ++ rest = 34%N :: r ∧ read_string r = Some (s, rest).
Proof.
  exists (escape_units s ++ 34%N :: rest). split.
  - unfold QuoteJSONString. cbn [app]. by rewrite <- app_assoc.
  - apply read_string_escape.
Qed.

Lemma skip_ws_terminated rest : terminated rest → skip_ws rest = rest.
Proof.
  destruct rest as [|c r]; [done|].
  intros [-> | [-> | ->]]; reflexivity.
Qed.

Lemma stringify_arr x l :
  stringify (JArr (x :: l)) = 91%N :: stringify_elems (x :: l).
Proof. reflexivity. Qed.

Lemma stringify_obj kv l :
  stringify (JObj (kv :: l)) = 123%N :: stringify_members (kv :: l).
Proof. reflexivity. Qed.

Lemma skip_ws_cons c r : is_ws c = false → skip_ws (c :: r) = c :: r.
Proof. intros Hc. simpl. by rewrite Hc. Qed.

Lemma is_digit_plain c :
  is_digit c = true →
  is_ws c = false ∧ (c =? 93)%N = false ∧ (c =? 125)%N = false.
Proof.
  unfold is_digit, digit_of.
  repeat match goal with
         | |- context [(c =? ?k)%N] =>
             destruct (N.eqb_spec c k) as [->|_]; [by repeat split|]
         end.
  done.
Qed.

(** A printed value starts with a character that is neither white space
    nor a closing bracket. *)
Lemma stringify_head v :
  ∃ c r, stringify v = c :: r ∧ is_ws c = false ∧ (c =? 93)%N = false.
Proof.
  destruct v as [|[]|m e|t|items|ms]; try (by do 2 eexists).
  simpl. unfold NumberToString, print_Z.
  destruct (print_N_head (Z.abs_N m)) as (c & r & Hhead & Hdig).
  apply is_digit_plain in Hdig as (? & ? & _). rewrite Hhead.
  destruct (m <? 0)%Z; by do 2 eexists.
Qed.

Lemma value_step_number elements members m e rest :
  terminated rest →
  value_step elements members (NumberToString m e ++ rest)
  = Some (JNum m e, rest).
Proof.
  intros Hrest.
  pose proof (read_number_print m e rest Hrest) as Hread.
  assert (Hhead : ∃ c r, NumberToString m e ++ rest = c :: r ∧
                         (c =? 45)%N || is_digit c = true ∧ is_ws c = false).
  { unfold NumberToString, print_Z.
    destruct (print_N_head (Z.abs_N m)) as (c & r & Hhead & Hdig).
    rewrite Hhead. destruct (m <? 0)%Z; do 2 eexists; (split; [reflexivity|]).
    - done.
    - rewrite Hdig. apply is_digit_plain in Hdig as (? & _).
      split; [apply orb_true_r | done]. }
  destruct Hhead as (c & r & Heq & Hnum & Hws).
  rewrite Heq in Hread |- *. unfold value_step.
  rewrite skip_ws_cons by done. by rewrite Hnum.
Qed.

Lemma parse_value_S f s :
  parse_value (S f) s = value_step (parse_elements f) (parse_members f) s.
Proof. reflexivity. Qed.

Lemma parse_elements_S f s :
  parse_elements (S f) s = elements_step (parse_value f) (parse_elements f) s.
Proof. reflexivity. Qed.

Lemma parse_members_S f s :
  parse_members (S f) s = members_step (parse_value f) (parse_members f) s.
Proof. reflexivity. Qed.

Lemma stringify_elems_cons x l :
  stringify_elems (x :: l)
  = stringify x ++ match l with [] => [93%N] | _ => 44%N :: stringify_elems l end.
Proof. reflexivity. Qed.

Lemma stringify_members_cons k x l :
  stringify_members ((k, x) :: l)
  = QuoteJSONString k ++ 58%N :: stringify x ++
    match l with [] => [125%N] | _ => 44%N :: stringify_members l end.
Proof. reflexivity. Qed.

Lemma parse_elements_stringify l :
  ∀ x, Forall value_ok (x :: l) →
  ∀ fuel rest,
    2 * length (stringify_elems (x :: l)) + 2 ≤ fuel →
    parse_elements fuel (stringify_elems (x :: l) ++ rest) = Some (x :: l, rest).
Proof.
  induction l as [|y l IH]; intros x Hall fuel rest Hfuel;
    inversion Hall as [|? ? Hx Hl]; subst;
    (destruct fuel as [|f]; [lia|]);
    rewrite parse_elements_S; unfold elements_step;
    rewrite (stringify_elems_cons x) in Hfuel |- *;
    rewrite length_app in Hfuel; cbn [length] in Hfuel;
    rewrite <- app_assoc.
  - rewrite Hx; [reflexivity | by right; left | lia].
  - rewrite Hx; [| by left | lia].
    cbn -[stringify_elems parse_elements].
    rewrite (IH y Hl f rest) by lia. reflexivity.
Qed.

Lemma parse_members_stringify l :
  ∀ kv, Forall (λ kv, value_ok (snd kv)) (kv :: l) →
  ∀ fuel rest,
    2 * length (stringify_members (kv :: l)) + 2 ≤ fuel →
    parse_members fuel (stringify_members (kv :: l) ++ rest)
    = Some (kv :: l, rest).
Proof.
  induction l as [|kv' l IH]; intros [k x] Hall fuel rest Hfuel;
    inversion Hall as [|? ? Hx Hl]; subst; cbn [snd] in Hx;
    (destruct fuel as [|f]; [lia|]);
    rewrite parse_members_S; unfold members_step;
    rewrite (stringify_members_cons k x) in Hfuel |- *;
    rewrite length_app in Hfuel; cbn [length] in Hfuel;
    rewrite length_app in Hfuel;
    rewrite <- app_assoc;
    match goal with
    | |- context [QuoteJSONString k ++ ?tail] =>
        destruct (read_string_quote k tail) as (r & Hq & Hread)
    end;
    rewrite Hq; cbn -[read_string stringify_members parse_members parse_value];
    rewrite Hread; cbn -[stringify_members parse_members parse_value];
    rewrite <- app_assoc.
  - rewrite Hx; [reflexivity | by right; right | lia].
  - rewrite Hx; [| by left | lia].
    cbn -[stringify_members parse_members].
    rewrite (IH kv' Hl f rest) by (cbn [length] in Hfuel; lia). reflexivity.
Qed.

(** Every value is read back from its print. *)
Lemma parse_value_stringify v : value_ok v.
Proof.
  induction v as [|b|m e|t|items IH|ms IH] using json_nested_ind;
    intros fuel rest Hrest Hfuel;
    (destruct fuel as [|f]; [lia|]); rewrite parse_value_S.
  - reflexivity.
  - destruct b; reflexivity.
  - by apply value_step_number.
  - cbn [stringify]. destruct (read_string_quote t rest) as (r & Hq & Hread).
    rewrite Hq. unfold value_step. cbn -[read_string]. by rewrite Hread.
  - destruct items as [|x l]; [reflexivity|].
    rewrite stringify_arr in Hfuel |- *. cbn [length] in Hfuel.
    unfold value_step. cbn [app]. rewrite skip_ws_cons by reflexivity.
    cbn -[stringify_elems parse_elements skip_ws].
    destruct (stringify_head x) as (c & r & Hhead & Hws & Hclose).
    rewrite parse_elements_stringify by (done || lia).
    rewrite stringify_elems_cons, Hhead. cbn [app].
    rewrite skip_ws_cons by done. by rewrite Hclose.
  - destruct ms as [|[k x] l]; [reflexivity|].
    rewrite stringify_obj in Hfuel |- *. cbn [length] in Hfuel.
    unfold value_step. cbn [app]. rewrite skip_ws_cons by reflexivity.
    cbn -[stringify_members parse_members skip_ws].
    rewrite parse_members_stringify by (done || lia).
    rewrite stringify_members_cons. reflexivity.
Qed.

(** The round trip of the built-ins: parsing a printed value gives the
    value back. *)
Lemma JSON_parse_stringify v : JSON_parse (JSON_stringify v) = Some v.
Proof.
  unfold JSON_parse, JSON_stringify.
  pose proof (parse_value_stringify v (2 * length (stringify v) + 1) [] I) as H.
  rewrite app_nil_r in H. by rewrite H.
Qed.

(** ** The fuel of the parser *)

Lemma skip_ws_length s : length (skip_ws s) ≤ length s.
Proof.
  induction s as [|c r IH]; simpl; [done|].
  destruct (is_ws c); simpl; lia.
Qed.

Lemma read_uint_length s u r : read_uint s = (u, r) → length r ≤ length s.
Proof.
  revert u r. induction s as [|c s IH]; intros u r; simpl.
  { intros [= <- <-]. done. }
  destruct (digit_of c).
  - destruct (read_uint s) as [u' r'] eqn:Hread. intros [= <- <-].
    specialize (IH _ _ eq_refl). lia.
  - intros [= <- <-]. simpl. lia.
Qed.

Lemma expect_length w : ∀ s r, expect w s = Some r → length r ≤ length s.
Proof.
  induction w as [|c w IH]; intros s r; simpl.
  { by intros [= <-]. }
  destruct s as [|x s]; [done|]. destruct (x =? c)%N; [|done].
  intros H. apply IH in H. simpl. lia.
Qed.

Lemma read_string_length n :
  ∀ s t r, length s ≤ n → read_string s = Some (t, r) → length r ≤ length s.
Proof.
  induction n as [|n IH]; intros s t r Hn.
  { destruct s; [done|simpl in Hn; lia]. }
  destruct s as [|c s]; [done|]. cbn [read_string].
  simpl in Hn.
  repeat case_match; intros; simplify_eq; simpl in *;
    try lia;
    match goal with
    | H : read_string ?x = Some (_, ?y) |- _ =>
        apply IH in H; simpl in *; lia
    end.
Qed.

Lemma read_number_length s v r : read_number s = Some (v, r) → length r ≤ length s.
Proof.
  unfold read_number, read_magnitude, read_int_part, read_frac, read_exp.
  intros H.
  repeat (case_match; simplify_eq; simpl in * ); 
    repeat match goal with
    | H : read_uint _ = _ |- _ => apply read_uint_length in H; simpl in H
    end; try lia.
Qed.

Ltac shrink_hyps :=
  repeat match goal with
    | H : read_string _ = Some _ |- _ =>
        apply (read_string_length _ _ _ _ (le_n _)) in H
    | H : read_number _ = Some _ |- _ => apply read_number_length in H
    | H : expect _ _ = Some _ |- _ => apply expect_length in H
    | Hs : shrinks ?f, H : ?f _ = Some _ |- _ => apply Hs in H
    | H : skip_ws ?s = _ |- _ =>
        let L := fresh "L" in
        pose proof (skip_ws_length s) as L; rewrite H in L; clear H
    end.

Lemma value_step_shrinks el me :
  shrinks el → shrinks me → shrinks (value_step el me).
Proof.
  intros Hel Hme s v r. unfold value_step. intros H.
  repeat (case_match; simplify_eq); shrink_hyps; simpl in *; lia.
Qed.

Lemma elements_step_shrinks va el :
  shrinks va → shrinks el → shrinks (elements_step va el).
Proof.
  intros Hva Hel s v r. unfold elements_step. intros H.
  repeat (case_match; simplify_eq); shrink_hyps; simpl in *; lia.
Qed.

Lemma members_step_shrinks va me :
  shrinks va → shrinks me → shrinks (members_step va me).
Proof.
  intros Hva Hme s v r. unfold members_step. intros H.
  repeat (case_match; simplify_eq); shrink_hyps; simpl in *; lia.
Qed.

Lemma parse_shrinks f :
  shrinks (parse_value f) ∧ shrinks (parse_elements f) ∧ shrinks (parse_members f).
Proof.
  induction f as [|f (Hv & He & Hm)].
  { repeat split; intros s a r; discriminate. }
  repeat split.
  - by apply value_step_shrinks.
  - by apply elements_step_shrinks.
  - by apply members_step_shrinks.
Qed.

Lemma value_step_ext el el' me me' s :
  agree_below (length s) el el' →
  agree_below (length s) me me' →
  value_step el me s = value_step el' me' s.
Proof.
  intros Hel Hme. unfold value_step.
  pose proof (skip_ws_length s) as Hs.
  destruct (skip_ws s) as [|c r]; [done|]. simpl in Hs.
  rewrite (Hel r), (Hme r) by lia. reflexivity.
Qed.

Lemma elements_step_ext va va' el el' s :
  shrinks va →
  va s = va' s →
  agree_below (length s) el el' →
  elements_step va el s = elements_step va' el' s.
Proof.
  intros Hva Hs Hel. unfold elements_step. rewrite <- Hs.
  destruct (va s) as [[v r]|] eqn:Hv; [|done].
  apply Hva in Hv. pose proof (skip_ws_length r) as Hr.
  destruct (skip_ws r) as [|x r']; [done|]. simpl in Hr.
  rewrite (Hel r') by lia. reflexivity.
Qed.

Lemma members_step_ext va va' me me' s :
  shrinks va →
  agree_below (length s) va va' →
  agree_below (length s) me me' →
  members_step va me s = members_step va' me' s.
Proof.
  intros Hsh Hva Hme. unfold members_step.
  pose proof (skip_ws_length s) as Hs.
  destruct (skip_ws s) as [|q r]; [done|]. simpl in Hs.
  destruct (q =? 34)%N; [|done].
  destruct (read_string r) as [[k r1]|] eqn:Hk; [|done].
  apply (read_string_length _ _ _ _ (le_n _)) in Hk.
  pose proof (skip_ws_length r1) as Hr1.
  destruct (skip_ws r1) as [|y r2]; [done|]. simpl in Hr1.
  destruct (y =? 58)%N; [|done].
  rewrite <- (Hva r2) by lia.
  destruct (va r2) as [[v r3]|] eqn:Hv; [|done].
  apply Hsh in Hv. pose proof (skip_ws_length r3) as Hr3.
  destruct (skip_ws r3) as [|z r4]; [done|]. simpl in Hr3.
  rewrite (Hme r4) by lia. reflexivity.
Qed.

(** One more unit of fuel changes nothing once there is fuel for twice
    the length of the input. *)
Lemma parse_fuel_step f :
  ∀ s,
    (2 * length s + 1 ≤ f → parse_value (S f) s = parse_value f s)
    ∧ (2 * length s + 2 ≤ f → parse_elements (S f) s = parse_elements f s)
    ∧ (2 * length s + 2 ≤ f → parse_members (S f) s = parse_members f s).
Proof.
  induction f as [|f IH]; intros s.
  { repeat split; intros; lia. }
  destruct (parse_shrinks f) as (Hv & _ & _).
  destruct (parse_shrinks (S f)) as (HvS & _ & _).
  repeat split; intros Hf.
  - rewrite (parse_value_S (S f)), (parse_value_S f).
    apply value_step_ext; intros r Hr; apply IH; lia.
  - rewrite (parse_elements_S (S f)), (parse_elements_S f).
    apply elements_step_ext; [done| apply IH; lia |].
    intros r Hr; apply IH; lia.
  - rewrite (parse_members_S (S f)), (parse_members_S f).
    apply members_step_ext; [done|..]; intros r Hr; apply IH; lia.
Qed.

(** [JSON_parse] gives its parser all the fuel it can use: with more
    fuel the result is the same. *)
Lemma parse_value_fuel_enough s f :
  2 * length s + 1 ≤ f →
  parse_value f s = parse_value (2 * length s + 1) s.
Proof.
  intros Hf. induction Hf as [|f Hf IH]; [done|].
  rewrite <- IH. by apply parse_fuel_step.
Qed.

(** * Properties of the event router *)

Lemma logged_nil w : logged w [] = w.
Proof. destruct w. unfold logged. simpl. by rewrite app_nil_r. Qed.

Lemma logged_logged w xs ys : logged (logged w xs) ys = logged w (xs ++ ys).
Proof. unfold logged. simpl. by rewrite app_assoc. Qed.

Lemma with_callbacks_same p : with_callbacks (_callbacks p) p = p.
Proof. by destruct p. Qed.

Lemma with_this_same w : with_this (this w) w = w.
Proof. by destruct w. Qed.

(** A function is never identical to a record: the scan of
    [_offCallback] finds nothing. *)
Lemma some_splice_function f l : some_splice (FunRef f) l = l.
Proof.
  induction l as [|clbk l IH]; [done|].
  cbn [some_splice]. destruct (decide (FunRef f = RecRef (oid clbk))); [done|].
  by rewrite IH.
Qed.

(** Reading a name that is not inherited gives an array or nothing. *)
Lemma read_callbacks_plain p k :
  inherited k = false → read_callbacks p k ≠ NotArray.
Proof.
  intros Hk. unfold read_callbacks. rewrite Hk.
  by destruct (_callbacks p !! k).
Qed.

Lemma read_callbacks_own p k a :
  _callbacks p !! k = Some a → read_callbacks p k = Array a.
Proof. intros Hk. unfold read_callbacks. by rewrite Hk. Qed.

Lemma subscribers_read p k :
  subscribers p k
  = match read_callbacks p k with Array a => a | _ => [] end.
Proof.
  unfold subscribers, read_callbacks.
  destruct (_callbacks p !! k); [done|]. by destruct (inherited k).
Qed.

(** [_offCallback] throws under an inherited name and otherwise returns
    with nothing changed. *)
Lemma _offCallback_total ty f w :
  _offCallback ty f w
  = match read_callbacks (this w) (ToPropertyKey ty) with
    | NotArray => Thrown HostTypeError w
    | _ => Returned w
    end.
Proof.
  unfold _offCallback, read_callbacks.
  destruct (_callbacks (this w) !! ToPropertyKey ty) as [a|] eqn:Ha.
  - rewrite some_splice_function, insert_id by done.
    by rewrite with_callbacks_same, with_this_same.
  - by destruct (inherited (ToPropertyKey ty)).
Qed.

Lemma _offCallback_unchanged ty f w :
  inherited (ToPropertyKey ty) = false → _offCallback ty f w = Returned w.
Proof.
  intros Hty. rewrite _offCallback_total.
  pose proof (read_callbacks_plain (this w) _ Hty).
  by destruct (read_callbacks (this w) (ToPropertyKey ty)).
Qed.

Lemma fire_item_spec e item w :
  fire_item e item w = Returned (logged w [invocation e item]).
Proof.
  unfold fire_item, seq, invocation.
  destruct (context item) as [c|] eqn:Hc; simpl;
    (destruct (once item); [by apply _offCallback_unchanged | reflexivity]).
Qed.

Lemma forEach_fire e key n :
  ∀ k w,
    forEach n k key (fire_item e) w
    = Returned
        (logged w (map (invocation e)
                     (take n (drop k (subscribers (this w) key))))).
Proof.
  induction n as [|n IH]; intros k w.
  { simpl. by rewrite logged_nil. }
  cbn [forEach]. unfold subscribers.
  destruct (_callbacks (this w) !! key) as [a|] eqn:Ha; simpl.
  - destruct (a !! k) as [item|] eqn:Hk.
    + unfold seq. rewrite fire_item_spec, IH. unfold subscribers. simpl.
      rewrite Ha, logged_logged.
      by rewrite (drop_S a item k Hk).
    + rewrite IH. unfold subscribers. rewrite Ha.
      apply lookup_ge_None in Hk.
      rewrite !drop_ge by lia. by rewrite !take_nil.
  - rewrite IH. unfold subscribers. rewrite Ha.
    by rewrite !drop_nil, !take_nil.
Qed.

(** [_fire] on an array calls its records in order; on anything else it
    throws. *)
Lemma _fire_spec e key w :
  _fire e key w
  = match read_callbacks (this w) key with
    | Array a => Returned (logged w (map (invocation e) a))
    | NotArray | Absent => Thrown HostTypeError w
    end.
Proof.
  unfold _fire, read_callbacks.
  destruct (_callbacks (this w) !! key) as [a|] eqn:Ha.
  - rewrite forEach_fire. unfold subscribers. rewrite Ha.
    by rewrite drop_0, firstn_all.
  - by destruct (inherited key).
Qed.

(** [trigger] throws, with nothing called, when the type names an
    inherited member that no own array hides; otherwise it returns after
    the calls of the subscribers of the type and of the wildcard. *)
Lemma trigger_total ty d r w :
  trigger ty d r w
  = match read_callbacks (this w) (ToPropertyKey ty) with
    | NotArray => Thrown HostTypeError w
    | _ =>
        Returned
          (logged w
             (map (invocation {| type := ty; data := or_else d null;
                                 rawEvent := r |})
                (subscribers (this w) (ToPropertyKey ty)) ++
              map (invocation {| type := ty; data := or_else d null;
                                 rawEvent := r |})
                (subscribers (this w) (str "all"))))
    end.
Proof.
  unfold trigger, seq. cbv zeta.
  set (e := {| type := ty; data := or_else d null; rawEvent := r |}).
  assert (Hall : ∀ w', this w' = this w →
            match read_callbacks (this w) (str "all") with
            | Array _ | NotArray => _fire e (str "all")
            | Absent => ret
            end w'
            = Returned (logged w' (map (invocation e)
                                     (subscribers (this w) (str "all"))))).
  { intros w' Hw'. rewrite <- Hw'. pose proof (_fire_spec e (str "all") w') as Hf.
    unfold subscribers, read_callbacks in *.
    destruct (_callbacks (this w') !! str "all") as [b|]; [done|].
    change (inherited (str "all")) with false. unfold ret.
    by rewrite logged_nil. }
  pose proof (_fire_spec e (ToPropertyKey ty) w) as Hf.
  rewrite (subscribers_read (this w) (ToPropertyKey ty)).
  destruct (read_callbacks (this w) (ToPropertyKey ty)) as [|a|].
  - unfold ret at 1. by rewrite Hall.
  - rewrite Hf, Hall by done. by rewrite logged_logged.
  - by rewrite Hf.
Qed.

Lemma read_callbacks_subscriber p k item :
  item ∈ subscribers p k → read_callbacks p k ≠ NotArray.
Proof.
  unfold subscribers, read_callbacks.
  destruct (_callbacks p !! k); [done|]. by intros ?%elem_of_nil.
Qed.

Lemma trigger_spec ty d r w :
  read_callbacks (this w) (ToPropertyKey ty) ≠ NotArray →
  trigger ty d r w
  = Returned
      (logged w
         (map (invocation {| type := ty; data := or_else d null; rawEvent := r |})
            (subscribers (this w) (ToPropertyKey ty)) ++
          map (invocation {| type := ty; data := or_else d null; rawEvent := r |})
            (subscribers (this w) (str "all")))).
Proof.
  intros Hty. rewrite trigger_total.
  by destruct (read_callbacks (this w) (ToPropertyKey ty)).
Qed.

(** Dispatch never changes the instance: no record is removed, whatever
    its [once] flag. *)
Lemma trigger_keeps_instance ty d r w :
  this (world_of (trigger ty d r w)) = this w.
Proof.
  rewrite trigger_total.
  by destruct (read_callbacks (this w) (ToPropertyKey ty)).
Qed.

(** The effects of [trigger] are calls with the event it builds. *)
Lemma trigger_effects ty d r w x :
  x ∈ drop (length (log w)) (log (world_of (trigger ty d r w))) →
  ∃ item,
    x = invocation {| type := ty; data := or_else d null; rawEvent := r |} item.
Proof.
  rewrite trigger_total.
  destruct (read_callbacks (this w) (ToPropertyKey ty));
    cbn [world_of logged log]; rewrite ?drop_app_length, ?drop_all;
    intros Hx; try (by apply elem_of_nil in Hx);
    apply elem_of_app in Hx as [Hx|Hx];
    apply list_elem_of_fmap in Hx as (item & -> & _); by eexists.
Qed.

(** * The claims *)

(** ** C1: once *)

(** C1, on the code as it is.  Callback 7 is registered with [once]
    under [x] on a new instance and [x] is triggered twice: the callback
    is called twice, and its record is still registered afterwards.
    ([_fire] passes [item.type], which no record has, and [_offCallback]
    compares the function with the records.) *)
Theorem once_callback_fires_on_every_trigger :
  let x := Val (JStr (str "x")) in
  let e := {| type := x; data := null; rawEvent := Undefined |} in
  let w1 := world_of (once_ (str "x") 7 None (PMS_new open_settings)) in
  let w3 := world_of ((trigger x Undefined Undefined >>
                       trigger x Undefined Undefined) w1) in
  log w3 = [Call 7 None e; Call 7 None e]
  ∧ subscribers (this w3) (str "x")
    = [{| callback := 7; context := None; once := true; oid := 0 |}].
Proof. vm_compute. split; reflexivity. Qed.

(** In general: a record registered under the type of the event is
    called by every [trigger] of that type and stays registered, whatever
    its [once] flag. *)
Lemma once_record_survives (ty d r : value) (item : subscription) (w : world) :
  item ∈ subscribers (this w) (ToPropertyKey ty) →
  let e := {| type := ty; data := or_else d null; rawEvent := r |} in
  let w' := world_of (trigger ty d r w) in
  invocation e item ∈ drop (length (log w)) (log w')
  ∧ item ∈ subscribers (this w') (ToPropertyKey ty).
Proof.
  intros Hin e w'. subst w'.
  rewrite trigger_spec by (by eapply read_callbacks_subscriber).
  simpl. split; [|done].
  rewrite drop_app_length. apply elem_of_app. left.
  by apply list_elem_of_fmap_2.
Qed.

(** ** C2: type lists given to trigger *)

(** C2, on the code as it is.  Callback 7 is registered under [hello];
    [_splitRegExp] finds the tokens [hello] and [hi] in the type list
    ["hello, hi"], yet [trigger] of that list calls nothing, while
    [trigger] of [hello] alone calls the callback: [trigger] looks the
    whole string up as one name. *)
Theorem trigger_does_not_split_type_list :
  let w1 := world_of (on (str "hello") 7 None false (PMS_new open_settings)) in
  let e := {| type := Val (JStr (str "hello")); data := null;
              rawEvent := Undefined |} in
  _splitRegExp (str "hello, hi") = [str "hello"; str "hi"]
  ∧ trigger (Val (JStr (str "hello, hi"))) Undefined Undefined w1 = Returned w1
  ∧ log (world_of (trigger (Val (JStr (str "hello"))) Undefined Undefined w1))
    = [Call 7 None e].
Proof. vm_compute. repeat split; reflexivity. Qed.

(** The names found by [_splitRegExp] contain neither a comma nor white
    space. *)
Lemma matches_from_plain s :
  ∀ cur,
    Forall (λ c, (c =? 44)%N || is_space c = false) cur →
    Forall (Forall (λ c, (c =? 44)%N || is_space c = false))
      (matches_from cur s).
Proof.
  induction s as [|c s IH]; intros cur Hcur; cbn [matches_from].
  - destruct cur; [constructor|].
    constructor; [|constructor]. by apply Forall_rev.
  - destruct ((c =? 44)%N || is_space c) eqn:Hc.
    + destruct cur as [|x cur]; [by apply IH|].
      constructor; [by apply Forall_rev | by apply IH].
    + apply IH. by constructor.
Qed.

Lemma _splitRegExp_plain s eName c :
  eName ∈ _splitRegExp s → c ∈ eName → (c =? 44)%N || is_space c = false.
Proof.
  intros HeName Hc.
  pose proof (matches_from_plain s [] (Forall_nil_2 _)) as Hall.
  rewrite Forall_forall in Hall. specialize (Hall eName HeName).
  rewrite Forall_forall in Hall. by apply Hall.
Qed.

(** ** C3: payloads that are not JSON *)

(** C3 as stated fails: with connectionID [svc1] set and a subscriber
    of [message] registered, the payload [Hi Jack], which [JSON.parse]
    rejects, makes [_processMessage] throw a TypeError (reading
    [parsed.connectionID] of undefined) with nothing dispatched. *)
Lemma malformed_payload_with_connectionID_throws :
  JSON_parse (str "Hi Jack") = None
  ∧ subscribers (this svc1_world) (str "message")
    = [{| callback := 7; context := None; once := false; oid := 1 |}]
  ∧ _processMessage (str "Hi Jack") svc1_world
    = Thrown HostTypeError svc1_world.
Proof. vm_compute. repeat split; reflexivity. Qed.

(** C3, amended.  For a payload on which [JSON.parse] throws: without
    local connectionID, [_processMessage] is the dispatch of the reserved
    type [message] with null data and the payload itself as raw event,
    and it returns; with a local connectionID, nothing is dispatched
    and the instance is unchanged. *)
Theorem malformed_payload_dispatch (p : list N) (w : world) :
  JSON_parse p = None →
  match _connectionID (this w) with
  | None =>
      _processMessage p w
      = trigger (Val (JStr (str "message"))) null (Val (JStr p)) w
      ∧ ∃ w', _processMessage p w = Returned w'
  | Some _ => world_of (_processMessage p w) = w
  end.
Proof.
  intros Hparse. unfold _processMessage, try_decode. rewrite Hparse.
  destruct (_connectionID (this w)) as [id|]; [reflexivity|].
  split; [reflexivity|]. cbn [d_type d_data d_rawEvent].
  rewrite trigger_spec by (apply read_callbacks_plain; reflexivity). eauto.
Qed.

Lemma malformed_payload_dispatch_witness :
  JSON_parse (str "Hi Jack") = None
  ∧ match _connectionID (this open_world) with
    | None =>
        _processMessage (str "Hi Jack") open_world
        = trigger (Val (JStr (str "message"))) null
            (Val (JStr (str "Hi Jack"))) open_world
        ∧ ∃ w', _processMessage (str "Hi Jack") open_world = Returned w'
    | Some _ => world_of (_processMessage (str "Hi Jack") open_world) = open_world
    end.
Proof.
  split; [vm_compute; reflexivity|].
  apply (malformed_payload_dispatch (str "Hi Jack") open_world).
  vm_compute; reflexivity.
Defined.

(** ** C4: the data accepted by send *)

(** C4 as stated fails: the empty string is supplied and is not a keyed
    structure, yet [send] raises nothing; [data || null] turns it into
    null and the envelope is posted. *)
Lemma send_empty_string_is_posted :
  send (str "hello") (Val (JStr [])) open_world
  = Returned
      (logged open_world
         [PostMessage 1
            (JSON_stringify (message_of None JNull (str "hello")))
            (str "*")]).
Proof. vm_compute. reflexivity. Qed.

(** C4, amended.  [send] raises its TypeError exactly when [data] is
    truthy and [typeof data] is not ['object'], that is, when it is
    [true], a number other than zero or a string other than the empty
    one.  Whenever [send] throws, the instance and the log are unchanged:
    nothing is posted.  In every other case (data absent, null, false,
    zero, the empty string, an object or an array), on an instance whose
    target is a window, exactly one message is posted to the target with
    the target origin: the envelope of the connectionID, of [data || null]
    and of the type. *)
Theorem send_rejects_truthy_non_objects (ty : list N) (d : value) (w : world) :
  (send ty d w = Thrown IncorrectDataType w
   ↔ truthy d = true ∧ typeof_object d = false)
  ∧ (∀ x w', send ty d w = Thrown x w' → w' = w)
  ∧ (∀ t, _targetWindow (this w) = PWindow t →
          truthy d = false ∨ typeof_object d = true →
          ∃ j, or_else d null = Val j
               ∧ send ty d w
                 = Returned
                     (logged w
                        [PostMessage t
                           (JSON_stringify
                              (message_of (_connectionID (this w)) j ty))
                           (_targetOrigin (this w))])).
Proof.
  unfold send, or_else, postMessage, emit, logged, null.
  destruct d as [|[|[]|m e|[|c s]|items|ms]]; simpl;
    try destruct (m =? 0)%Z; simpl;
    destruct (_targetWindow (this w)) as [| |t0]; simpl;
    (split; [split; [intros H; by inversion H | intros [? ?]; done]|]);
    (split; [intros x w' H; by inversion H|]);
    intros t Ht [Hd|Hd]; try done; inversion Ht; subst; eauto.
Qed.

Example send_string_fails :
  send (str "hello") (Val (JStr (str "a string"))) open_world
  = Thrown IncorrectDataType open_world.
Proof. vm_compute. reflexivity. Qed.

Example send_object_succeeds :
  send (str "hello") (Val (JObj [(str "a", JNum 1 0)])) svc1_world
  = Returned (logged svc1_world
                [PostMessage 1 (hello_from (str "svc1")) (str "*")]).
Proof. vm_compute. reflexivity. Qed.

Example send_without_data_encodes_null :
  send (str "hello") Undefined open_world
  = Returned
      (logged open_world
         [PostMessage 1
            (JSON_stringify (message_of None JNull (str "hello")))
            (str "*")]).
Proof. vm_compute. reflexivity. Qed.

(** ** C5: the connection filter *)

(** C5.  For an inbound payload that decodes to an object, [_processMessage]
    dispatches the decoded type, data and envelope to [trigger] exactly
    when the connection filter accepts the connectionID of the envelope:
    the local connectionID is absent or is that very string.  Otherwise
    it returns with nothing dispatched and the instance unchanged. *)
Theorem receive_filters_by_connectionID
    (p : list N) (ms : list (list N * json)) (w : world) :
  JSON_parse p = Some (JObj ms) →
  _processMessage p w
  = if accepts (_connectionID (this w)) (field ms (str "connectionID"))
    then trigger (field ms (str "type")) (field ms (str "data"))
           (Val (JObj ms)) w
    else Returned w.
Proof.
  intros Hparse. unfold _processMessage, try_decode. rewrite Hparse.
  cbn [get d_parsed d_type d_data d_rawEvent]. fold (field ms (str "type")).
  fold (field ms (str "data")). fold (field ms (str "connectionID")).
  unfold accepts, strict_equals_string.
  destruct (_connectionID (this w)); reflexivity.
Qed.

Lemma receive_filters_by_connectionID_witness :
  JSON_parse (hello_from (str "svc1")) = Some (JObj (hello_members (str "svc1")))
  ∧ _processMessage (hello_from (str "svc1")) svc1_world
    = if accepts (_connectionID (this svc1_world))
           (field (hello_members (str "svc1")) (str "connectionID"))
      then trigger (field (hello_members (str "svc1")) (str "type"))
             (field (hello_members (str "svc1")) (str "data"))
             (Val (JObj (hello_members (str "svc1")))) svc1_world
      else Returned svc1_world.
Proof.
  split; [vm_compute; reflexivity|].
  apply receive_filters_by_connectionID. vm_compute; reflexivity.
Defined.

Example svc2_is_dropped :
  _processMessage (hello_from (str "svc2")) svc1_world = Returned svc1_world.
Proof. vm_compute. reflexivity. Qed.

Example svc1_is_dispatched :
  log (world_of (_processMessage (hello_from (str "svc1")) svc1_world))
  = let e := {| type := Val (JStr (str "hello"));
                data := Val (JObj [(str "a", JNum 1 0)]);
                rawEvent := Val (JObj (hello_members (str "svc1"))) |} in
    [Call 7 None e; Call 7 None e].
Proof. vm_compute. reflexivity. Qed.

Example open_instance_dispatches :
  log (world_of (_processMessage (hello_from (str "svc2")) open_world))
  = let e := {| type := Val (JStr (str "hello"));
                data := Val (JObj [(str "a", JNum 1 0)]);
                rawEvent := Val (JObj (hello_members (str "svc2"))) |} in
    [Call 7 None e; Call 7 None e].
Proof. vm_compute. reflexivity. Qed.

(** ** C6: round trip of the envelope *)

(** The inverse law of the built-ins on the object literal of [send]:
    the text of the envelope parses to the envelope, and the [try]
    statement of [_processMessage] reads its type and data. *)
Lemma envelope_round_trip (id : option (list N)) (ty : list N) (d : json) :
  let env := message_of id d ty in
  let wire := JSON_stringify env in
  JSON_parse wire = Some env
  ∧ try_decode wire
    = {| d_parsed := Val env; d_type := Val (JStr ty);
         d_data := Val d; d_rawEvent := Val env |}
  ∧ get (d_parsed (try_decode wire)) (str "connectionID")
    = Ok (Val (match id with Some i => JStr i | None => JNull end)).
Proof.
  intros env wire.
  assert (Hparse : JSON_parse wire = Some env) by apply JSON_parse_stringify.
  assert (Hdec : try_decode wire
                 = {| d_parsed := Val env; d_type := Val (JStr ty);
                      d_data := Val d; d_rawEvent := Val env |}).
  { unfold try_decode. rewrite Hparse. reflexivity. }
  repeat split; [done..|].
  rewrite Hdec. reflexivity.
Qed.

(** C6.  What [send] encodes, [_processMessage] decodes.  On an instance
    whose target is a window, [send] of a type and of a keyed structure
    (an object, an array, or null for absent data) posts one wire string.
    Decoding that string in [_processMessage] gives back the three parts
    of the envelope: the decoded type is the string sent, the decoded
    data is the data sent, and the connectionID read from the decoded
    envelope is that of the sender (null when it has none).  So every
    instance with the connectionID of the sender that processes the
    string triggers exactly that type with that data, the envelope being
    the raw event. *)
Theorem sent_envelope_is_decoded (ty : list N) (d : json) (t : nat) (w : world) :
  _targetWindow (this w) = PWindow t →
  typeof_object (Val d) = true →
  let id := _connectionID (this w) in
  let env := message_of id d ty in
  ∃ wire,
    send ty (Val d) w
    = Returned (logged w [PostMessage t wire (_targetOrigin (this w))])
    ∧ try_decode wire
      = {| d_parsed := Val env; d_type := Val (JStr ty);
           d_data := Val d; d_rawEvent := Val env |}
    ∧ get (d_parsed (try_decode wire)) (str "connectionID")
      = Ok (Val (match id with Some i => JStr i | None => JNull end))
    ∧ ∀ w', _connectionID (this w') = id →
            _processMessage wire w'
            = trigger (Val (JStr ty)) (Val d) (Val env) w'.
Proof.
  intros Ht Hobj id env. exists (JSON_stringify env).
  destruct (envelope_round_trip id ty d) as (_ & Hdec & Hid).
  fold env in Hdec, Hid. split; [|split; [exact Hdec|split; [exact Hid|]]].
  - unfold send, or_else, postMessage. rewrite Ht.
    destruct d as [|b|m e|s|items|ms]; try done.
  - intros w' Hw'. unfold _processMessage. rewrite Hw'.
    fold id. destruct id as [i|] eqn:Hi.
    + rewrite Hid, Hdec. cbn [d_type d_data d_rawEvent strict_equals_string].
      by rewrite bool_decide_eq_true_2.
    + by rewrite Hdec.
Qed.

Lemma sent_envelope_is_decoded_witness :
  let d := JObj [(str "a", JNum 1 0)] in
  let ty := str "hello" in
  let id := _connectionID (this svc1_world) in
  let env := message_of id d ty in
  _targetWindow (this svc1_world) = PWindow 1
  ∧ typeof_object (Val d) = true
  ∧ ∃ wire,
      send ty (Val d) svc1_world
      = Returned (logged svc1_world
                    [PostMessage 1 wire (_targetOrigin (this svc1_world))])
      ∧ try_decode wire
        = {| d_parsed := Val env; d_type := Val (JStr ty);
             d_data := Val d; d_rawEvent := Val env |}
      ∧ get (d_parsed (try_decode wire)) (str "connectionID")
        = Ok (Val (match id with Some i => JStr i | None => JNull end))
      ∧ ∀ w', _connectionID (this w') = id →
              _processMessage wire w'
              = trigger (Val (JStr ty)) (Val d) (Val env) w'.
Proof.
  intros d ty id env.
  split; [reflexivity|]. split; [reflexivity|].
  apply (sent_envelope_is_decoded ty d 1 svc1_world); reflexivity.
Defined.

(** ** C7: the source of a message *)

(** C7.  A message whose source is not identical to the target window
    is dropped: [_receive] returns, the payload is not decoded, nothing
    is dispatched and the instance is unchanged, whatever the payload. *)
Theorem receive_drops_foreign_source (e : MessageEvent.t) (w : world) :
  MessageEvent.source e ≠ _targetWindow (this w) →
  _receive e w = Returned w.
Proof.
  intros Hsrc. unfold _receive.
  destruct (decide (MessageEvent.source e = _targetWindow (this w))); done.
Qed.

Lemma receive_drops_foreign_source_witness :
  MessageEvent.source
    {| MessageEvent.source := PWindow 2;
       MessageEvent.data := hello_from (str "svc1") |}
  ≠ _targetWindow (this svc1_world)
  ∧ _receive {| MessageEvent.source := PWindow 2;
                MessageEvent.data := hello_from (str "svc1") |} svc1_world
    = Returned svc1_world.
Proof.
  split; [vm_compute; discriminate|].
  apply receive_drops_foreign_source. vm_compute; discriminate.
Defined.

(** A message from the target window is processed. *)
Lemma _receive_from_target (e : MessageEvent.t) (w : world) :
  MessageEvent.source e = _targetWindow (this w) →
  _receive e w = _processMessage (MessageEvent.data e) w.
Proof.
  intros Hsrc. unfold _receive.
  destruct (decide (MessageEvent.source e = _targetWindow (this w))); done.
Qed.

(** ** C8: set and the subscriptions *)

(** C8.  [set] returns; afterwards the target window, the target origin
    and the connection identifier are those of the settings (with the
    defaults ['*'] and null), and the registry of callbacks is the one
    from before: same names, same records, same order.  Nothing is
    logged. *)
Theorem set_keeps_callbacks (sets : option settings) (w : world) :
  ∃ w',
    set sets w = Returned w'
    ∧ _callbacks (this w') = _callbacks (this w)
    ∧ log w' = log w
    ∧ _targetWindow (this w')
      = match sets with Some s => targetWindow s | None => PUndefined end
    ∧ _targetOrigin (this w')
      = match sets ≫= targetOrigin with
        | Some (c :: o) => c :: o
        | _ => str "*"
        end
    ∧ _connectionID (this w')
      = match sets ≫= connectionID with
        | Some (c :: i) => Some (c :: i)
        | _ => None
        end.
Proof.
  eexists. split; [reflexivity|].
  destruct sets as [s|]; simpl; repeat split; reflexivity.
Qed.

(** ** C9: the wildcard *)

(** C9, on the code as it is.  Callback 7 is registered under the
    wildcard [all] (and under [hello], [message] and [undefined]).  A
    [trigger] of the type [toString] calls nobody and throws:
    [this._callbacks['toString']] is the function that the plain object
    inherits, it is truthy, and [_fire] calls its [forEach], which it
    does not have; the wildcard subscribers are never reached.  The same
    happens to an inbound envelope whose type is [constructor].  A
    [trigger] of [hello] does reach the wildcard subscriber, after the
    subscriber of [hello]. *)
Theorem trigger_of_inherited_name_misses_wildcard :
  let e := {| type := Val (JStr (str "hello")); data := null;
              rawEvent := Undefined |} in
  subscribers (this open_world) (str "all")
  = [{| callback := 7; context := None; once := false; oid := 3 |}]
  ∧ trigger (Val (JStr (str "toString"))) Undefined Undefined open_world
    = Thrown HostTypeError open_world
  ∧ _processMessage
      (JSON_stringify (message_of None JNull (str "constructor"))) open_world
    = Thrown HostTypeError open_world
  ∧ trigger (Val (JStr (str "hello"))) Undefined Undefined open_world
    = Returned (logged open_world [Call 7 None e; Call 7 None e]).
Proof. vm_compute. repeat split; reflexivity. Qed.

(** ** C10: payloads that are JSON but not objects *)

(** C10 as stated fails: the payload [null] is accepted by [JSON.parse]
    and denotes a value that is not an object, yet on an instance
    without connectionID it is dispatched on the fallback channel: reading
    [parsed.type] of null throws inside the [try], so the subscriber of
    [message] is called (and then the wildcard one), with the raw
    payload. *)
Lemma null_payload_takes_message_fallback :
  JSON_parse (str "null") = Some JNull
  ∧ _connectionID (this open_world) = None
  ∧ _processMessage (str "null") open_world
    = trigger (Val (JStr (str "message"))) null (Val (JStr (str "null")))
        open_world
  ∧ log (world_of (_processMessage (str "null") open_world))
    = let e := {| type := Val (JStr (str "message")); data := null;
                  rawEvent := Val (JStr (str "null")) |} in
      [Call 7 None e; Call 7 None e].
Proof. vm_compute. repeat split; reflexivity. Qed.

(** C10, amended.  On an instance without connectionID, for a payload
    that [JSON.parse] accepts and that denotes neither an object nor
    null (a number, a string, a boolean or an array), [_processMessage]
    returns after calling, with the event of undefined type, null data
    and the parsed value as raw event, the subscribers of the name
    [undefined] and then those of the wildcard [all], and nobody else.
    For the payload that denotes null it is the dispatch of the fallback
    type [message] with the raw payload, as when [JSON.parse] throws. *)
Theorem non_object_payload_dispatch (p : list N) (j : json) (w : world) :
  JSON_parse p = Some j →
  _connectionID (this w) = None →
  (∀ ms, j ≠ JObj ms) →
  (j ≠ JNull →
   let e := {| type := Undefined; data := null; rawEvent := Val j |} in
   _processMessage p w
   = Returned
       (logged w
          (map (invocation e) (subscribers (this w) (str "undefined"))
           ++ map (invocation e) (subscribers (this w) (str "all")))))
  ∧ (j = JNull →
     _processMessage p w
     = trigger (Val (JStr (str "message"))) null (Val (JStr p)) w).
Proof.
  intros Hparse Hcid Hobj.
  unfold _processMessage, try_decode. rewrite Hparse, Hcid.
  destruct j as [|b|m e|s|items|ms]; cbn [get d_type d_data d_rawEvent];
    (split; intros Hnull); try done;
    try (cbv zeta; by rewrite trigger_spec
           by (apply read_callbacks_plain; reflexivity)).
  by destruct (Hobj ms).
Qed.

Lemma non_object_payload_dispatch_witness :
  JSON_parse (str "5") = Some (JNum 5 0)
  ∧ _connectionID (this open_world) = None
  ∧ (∀ ms, JNum 5 0 ≠ JObj ms)
  ∧ (JNum 5 0 ≠ JNull →
     let e := {| type := Undefined; data := null; rawEvent := Val (JNum 5 0) |} in
     _processMessage (str "5") open_world
     = Returned
         (logged open_world
            (map (invocation e) (subscribers (this open_world) (str "undefined"))
             ++ map (invocation e) (subscribers (this open_world) (str "all")))))
  ∧ (JNum 5 0 = JNull →
     _processMessage (str "5") open_world
     = trigger (Val (JStr (str "message"))) null (Val (JStr (str "5")))
         open_world).
Proof.
  split; [vm_compute; reflexivity|].
  split; [vm_compute; reflexivity|].
  split; [discriminate|].
  apply (non_object_payload_dispatch (str "5") (JNum 5 0) open_world).
  - vm_compute; reflexivity.
  - vm_compute; reflexivity.
  - discriminate.
Defined.

Example string_payload_reaches_undefined_and_wildcard :
  log (world_of (_processMessage (JSON_stringify (JStr (str "hi"))) open_world))
  = let e := {| type := Undefined; data := null;
                rawEvent := Val (JStr (str "hi")) |} in
    [Call 7 None e; Call 7 None e].
Proof. vm_compute. reflexivity. Qed.

(** * Further properties *)

(** ** The matches of the regular expression *)

Lemma matches_from_nonempty s :
  ∀ cur, Forall (λ n, n ≠ []) (matches_from cur s).
Proof.
  induction s as [|c s IH]; intros cur; cbn [matches_from].
  - destruct cur as [|x cur]; constructor; [|constructor].
    intros H. apply (f_equal length) in H. rewrite length_rev in H. done.
  - destruct ((c =? 44)%N || is_space c).
    + destruct cur as [|x cur]; [apply IH|].
      constructor; [|apply IH].
      intros H. apply (f_equal length) in H. rewrite length_rev in H. done.
    + apply IH.
Qed.

Lemma matches_from_app cur a c b :
  separator c = true →
  matches_from cur (a ++ c :: b) = matches_from cur a ++ matches_from [] b.
Proof.
  intros Hc. revert cur.
  induction a as [|x a IH]; intros cur; cbn [app matches_from].
  - unfold separator in Hc. rewrite Hc. by destruct cur.
  - destruct ((x =? 44)%N || is_space x).
    + destruct cur; by rewrite IH.
    + apply IH.
Qed.

Lemma matches_from_plain_run s :
  ∀ cur,
    Forall (λ c, separator c = false) s →
    matches_from cur s
    = match rev cur ++ s with [] => [] | n => [n] end.
Proof.
  induction s as [|c s IH]; intros cur Hs; cbn [matches_from].
  - rewrite app_nil_r. destruct cur as [|x cur]; [done|].
    destruct (rev (x :: cur)) eqn:Hr; [|done].
    apply (f_equal length) in Hr. rewrite length_rev in Hr. done.
  - inversion Hs as [|? ? Hc Hs']; subst. unfold separator in Hc.
    rewrite Hc, IH by done. cbn [rev]. by rewrite <- app_assoc.
Qed.

Lemma names_of_matches (s eName : list N) :
  eName ∈ _splitRegExp s →
  eName ≠ [] ∧ Forall (λ c, separator c = false) eName.
Proof.
  intros Hin. split.
  - pose proof (matches_from_nonempty s []) as H.
    rewrite Forall_forall in H. by apply H.
  - pose proof (matches_from_plain s [] (Forall_nil_2 _)) as H.
    rewrite Forall_forall in H. by apply H.
Qed.

(** X1.  Every name that [_splitRegExp] finds is non-empty and contains
    neither a comma nor white space. *)
Theorem _splitRegExp_names (s eName : list N) :
  eName ∈ _splitRegExp s →
  eName ≠ [] ∧ Forall (λ c, separator c = false) eName.
Proof. apply names_of_matches. Qed.

Lemma _splitRegExp_names_witness :
  str "hi" ∈ _splitRegExp (str "hello, hi")
  ∧ str "hi" ≠ [] ∧ Forall (λ c, separator c = false) (str "hi").
Proof.
  assert (H : str "hi" ∈ _splitRegExp (str "hello, hi")).
  { vm_compute. apply list_elem_of_further, list_elem_of_here. }
  split; [exact H|]. exact (_splitRegExp_names _ _ H).
Defined.

(** X2.  A separator splits: the names of [a], a separator, [b] are the
    names of [a] followed by the names of [b]. *)
Theorem _splitRegExp_app (a b : list N) (c : N) :
  separator c = true →
  _splitRegExp (a ++ c :: b) = _splitRegExp a ++ _splitRegExp b.
Proof. intros Hc. by apply matches_from_app. Qed.

Lemma _splitRegExp_app_witness :
  separator 44 = true
  ∧ _splitRegExp (str "hello" ++ 44%N :: str " hi")
    = _splitRegExp (str "hello") ++ _splitRegExp (str " hi").
Proof.
  split; [reflexivity|]. apply _splitRegExp_app. reflexivity.
Defined.

(** X3.  A non-empty string without separators is its own single
    name. *)
Theorem _splitRegExp_single (s : list N) :
  Forall (λ c, separator c = false) s →
  s ≠ [] →
  _splitRegExp s = [s].
Proof.
  intros Hs Hne. unfold _splitRegExp. rewrite matches_from_plain_run by done.
  cbn [rev app]. by destruct s.
Qed.

Lemma _splitRegExp_single_witness :
  Forall (λ c, separator c = false) (str "hello")
  ∧ str "hello" ≠ []
  ∧ _splitRegExp (str "hello") = [str "hello"].
Proof.
  assert (H : Forall (λ c, separator c = false) (str "hello")).
  { vm_compute. repeat constructor. }
  split; [exact H|]. split; [discriminate|].
  apply _splitRegExp_single; [exact H | discriminate].
Defined.

(** A string of separators only, the empty string too, has no name. *)
Lemma _splitRegExp_separators (s : list N) :
  Forall (λ c, separator c = true) s → _splitRegExp s = [].
Proof.
  intros Hs. unfold _splitRegExp.
  induction Hs as [|c s Hc Hs IH]; [done|].
  cbn [matches_from]. unfold separator in Hc. by rewrite Hc.
Qed.


(** The matches with their ends are the matches. *)
Lemma matches_at_names s :
  ∀ cur i, map fst (matches_at cur i s) = matches_from cur s.
Proof.
  induction s as [|c s IH]; intros cur i; cbn [matches_at matches_from].
  - by destruct cur.
  - destruct ((c =? 44)%N || is_space c).
    + destruct cur; cbn [map fst]; by rewrite IH.
    + apply IH.
Qed.

(** A run without separators is one match, and it ends where the run
    ends. *)
Lemma matches_at_plain_run s :
  ∀ cur i,
    Forall (λ c, separator c = false) s →
    matches_at cur i s
    = match rev cur ++ s with [] => [] | n => [(n, i + length s)] end.
Proof.
  induction s as [|c s IH]; intros cur i Hs; cbn [matches_at].
  - rewrite app_nil_r. cbn [length]. rewrite Nat.add_0_r.
    destruct cur as [|x cur]; [done|].
    destruct (rev (x :: cur)) eqn:Hr; [|done].
    apply (f_equal length) in Hr. rewrite length_rev in Hr. done.
  - inversion Hs as [|? ? Hc Hs']; subst. unfold separator in Hc.
    rewrite Hc, IH by done. cbn [rev length]. rewrite <- app_assoc.
    cbn [app]. by replace (S i + length s) with (i + S (length s)) by lia.
Qed.

(** The inherited names are plain names. *)
Lemma inherited_plain k :
  inherited k = true → k ≠ [] ∧ Forall (λ c, separator c = false) k.
Proof.
  unfold inherited. intros Hk. apply bool_decide_eq_true_1 in Hk.
  unfold Object_prototype_names in Hk.
  repeat (apply elem_of_cons in Hk as [->|Hk];
          [split; [discriminate | vm_compute; repeat constructor]|]).
  by apply elem_of_nil in Hk.
Qed.

Lemma separator_not_inherited s :
  Exists (λ c, separator c = true) s → inherited s = false.
Proof.
  intros Hs. destruct (inherited s) eqn:Hi; [|done].
  apply inherited_plain in Hi as [_ Hplain].
  apply Exists_exists in Hs as (c & Hc & Hsep).
  rewrite Forall_forall in Hplain. specialize (Hplain c Hc). congruence.
Qed.

(** ** Registration *)

(** [push] throws under an inherited name that no array hides, with
    nothing changed; otherwise it returns. *)
Lemma push_total n cb ctx o w :
  push n cb ctx o w
  = match read_callbacks (this w) n with
    | NotArray => Thrown HostTypeError w
    | _ => Returned (world_of (push n cb ctx o w))
    end.
Proof. unfold push. by destruct (read_callbacks (this w) n). Qed.

Lemma push_frame n cb ctx o w :
  log (world_of (push n cb ctx o w)) = log w
  ∧ lastIndex (world_of (push n cb ctx o w)) = lastIndex w
  ∧ _targetWindow (this (world_of (push n cb ctx o w))) = _targetWindow (this w)
  ∧ _targetOrigin (this (world_of (push n cb ctx o w))) = _targetOrigin (this w)
  ∧ _connectionID (this (world_of (push n cb ctx o w))) = _connectionID (this w).
Proof. unfold push. by destruct (read_callbacks (this w) n). Qed.

Lemma subscribers_push n cb ctx o w k :
  read_callbacks (this w) n ≠ NotArray →
  subscribers (this (world_of (push n cb ctx o w))) k
  = if decide (n = k)
    then subscribers (this w) k
         ++ [{| callback := cb; context := ctx; once := o;
                oid := allocated (this w) |}]
    else subscribers (this w) k.
Proof.
  intros Hn. unfold push, subscribers at 1.
  rewrite (subscribers_read (this w) k).
  unfold read_callbacks in *.
  destruct (decide (n = k)) as [<-|Hne].
  - destruct (_callbacks (this w) !! n) as [a|] eqn:Ha;
      [|destruct (inherited n); [done|]];
      cbn [world_of with_this this _callbacks]; by rewrite lookup_insert_eq.
  - destruct (_callbacks (this w) !! n) as [a|] eqn:Ha;
      [|destruct (inherited n); [done|]];
      cbn [world_of with_this this _callbacks];
      rewrite lookup_insert_ne by done;
      destruct (_callbacks (this w) !! k); try done; by destruct (inherited k).
Qed.

Lemma with_lastIndex_this i w : this (with_lastIndex i w) = this w.
Proof. reflexivity. Qed.

Lemma on_names_spec cb ctx o ms :
  Forall (λ m, inherited (fst m) = false) ms →
  ∀ w, ∃ w',
    loop ms (λ eName, push eName cb ctx o) w = Returned w'
    ∧ log w' = log w
    ∧ lastIndex w' = 0
    ∧ _targetWindow (this w') = _targetWindow (this w)
    ∧ _targetOrigin (this w') = _targetOrigin (this w)
    ∧ _connectionID (this w') = _connectionID (this w)
    ∧ ∀ k, map shape (subscribers (this w') k)
           = map shape (subscribers (this w) k)
             ++ replicate (length (filter (λ n, n = k) (map fst ms)))
                  (cb, ctx, o).
Proof.
  induction 1 as [|[n i] ms Hn _ IH]; intros w.
  { exists (with_lastIndex 0 w). repeat split; try done.
    intros k. simpl. by rewrite app_nil_r. }
  cbn [fst] in Hn. cbn [loop]. rewrite push_total.
  pose proof (read_callbacks_plain (this (with_lastIndex i w)) n Hn) as Hread.
  destruct (read_callbacks (this (with_lastIndex i w)) n) as [|a|] eqn:Hr;
    [| |done];
    (destruct (push_frame n cb ctx o (with_lastIndex i w))
       as (Hl & _ & Htw & Hto & Hid);
     destruct (IH (world_of (push n cb ctx o (with_lastIndex i w))))
       as (w' & Hrun & Hlog & Hlast & Htw' & Hto' & Hid' & Hsubs);
     exists w'; rewrite Hrun;
     split; [done|]; split; [by rewrite Hlog, Hl|]; split; [done|];
     split; [by rewrite Htw', Htw|]; split; [by rewrite Hto', Hto|];
     split; [by rewrite Hid', Hid|];
     intros k; rewrite Hsubs, subscribers_push by (by rewrite Hr);
     cbn [map fst]; rewrite filter_cons;
     destruct (decide (n = k)) as [->|Hne]; [|done];
     rewrite map_app; cbn [map length replicate shape callback context once];
     by rewrite <- app_assoc).
Qed.

(** X4.  With the regular expression at rest and a type list none of
    whose names is a member of [Object.prototype], [on] returns without
    logging anything and without touching the settings, and leaves the
    regular expression at rest.  Under every name it leaves the records
    that were there, in their order, followed by one new record, with the
    given callback, context and once flag, for each time the name occurs
    in the type list; names that do not occur keep their records. *)
Theorem on_appends (ty : list N) (cb : nat) (ctx : option nat) (o : bool)
    (w : world) :
  lastIndex w = 0 →
  Forall (λ k, inherited k = false) (_splitRegExp ty) →
  ∃ w',
    on ty cb ctx o w = Returned w'
    ∧ log w' = log w
    ∧ lastIndex w' = 0
    ∧ _targetWindow (this w') = _targetWindow (this w)
    ∧ _targetOrigin (this w') = _targetOrigin (this w)
    ∧ _connectionID (this w') = _connectionID (this w)
    ∧ ∀ k, map shape (subscribers (this w') k)
           = map shape (subscribers (this w) k)
             ++ replicate (length (filter (λ n, n = k) (_splitRegExp ty)))
                  (cb, ctx, o).
Proof.
  intros Hrest Hnames. unfold on, while_exec. rewrite Hrest, drop_0.
  unfold _splitRegExp in *. rewrite <- (matches_at_names ty [] 0) in Hnames |- *.
  apply on_names_spec. by apply Forall_fmap in Hnames.
Qed.

Lemma on_appends_witness :
  lastIndex open_world = 0
  ∧ Forall (λ k, inherited k = false) (_splitRegExp (str "hello, hi"))
  ∧ ∃ w',
      on (str "hello, hi") 8 (Some 3) true open_world = Returned w'
      ∧ log w' = log open_world
      ∧ lastIndex w' = 0
      ∧ _targetWindow (this w') = _targetWindow (this open_world)
      ∧ _targetOrigin (this w') = _targetOrigin (this open_world)
      ∧ _connectionID (this w') = _connectionID (this open_world)
      ∧ ∀ k, map shape (subscribers (this w') k)
             = map shape (subscribers (this open_world) k)
               ++ replicate
                    (length (filter (λ n, n = k)
                               (_splitRegExp (str "hello, hi"))))
                    (8, Some 3, true).
Proof.
  assert (H : Forall (λ k, inherited k = false) (_splitRegExp (str "hello, hi"))).
  { vm_compute. repeat constructor. }
  split; [reflexivity|]. split; [exact H|].
  exact (on_appends (str "hello, hi") 8 (Some 3) true open_world eq_refl H).
Defined.

(** X5.  With the regular expression at rest, after [on] with a single
    name that is neither [all] nor a member of [Object.prototype], a
    [trigger] of that name calls the subscribers registered before under
    the name, then the new callback with its context, then the wildcard
    subscribers, all with the same event. *)
Theorem on_then_trigger (k : list N) (cb : nat) (ctx : option nat) (o : bool)
    (d r : value) (w : world) :
  lastIndex w = 0 →
  _splitRegExp k = [k] →
  k ≠ str "all" →
  inherited k = false →
  let e := {| type := Val (JStr k); data := or_else d null; rawEvent := r |} in
  ∃ w',
    (on k cb ctx o >> trigger (Val (JStr k)) d r) w = Returned w'
    ∧ log w'
      = log w
        ++ map (invocation e) (subscribers (this w) k)
        ++ [Call cb ctx e]
        ++ map (invocation e) (subscribers (this w) (str "all")).
Proof.
  intros Hrest Hk Hall Hplain e.
  assert (Hms : ∃ i, matches_at [] 0 k = [(k, i)]).
  { pose proof (matches_at_names k [] 0) as Hn.
    unfold _splitRegExp in Hk. rewrite Hk in Hn.
    destruct (matches_at [] 0 k) as [|[n i] [|m ms]]; try done.
    exists i. cbn in Hn. congruence. }
  destruct Hms as [i Hms].
  unfold seq, on, while_exec. rewrite Hrest, drop_0, Hms. cbn [loop].
  rewrite push_total.
  pose proof (read_callbacks_plain (this (with_lastIndex i w)) k Hplain) as Hr.
  set (w1 := world_of (push k cb ctx o (with_lastIndex i w))).
  assert (Hrun : match read_callbacks (this (with_lastIndex i w)) k with
                 | NotArray => Thrown HostTypeError (with_lastIndex i w)
                 | _ => Returned w1
                 end = Returned w1).
  { by destruct (read_callbacks (this (with_lastIndex i w)) k). }
  rewrite Hrun. cbn [world_of].
  destruct (push_frame k cb ctx o (with_lastIndex i w)) as (Hlog & _).
  fold w1 in Hlog.
  rewrite trigger_spec.
  2:{ change (this (with_lastIndex 0 w1)) with (this w1).
      by apply read_callbacks_plain. }
  eexists. split; [reflexivity|].
  change (ToPropertyKey (Val (JStr k))) with k.
  cbn [logged log with_lastIndex this]. rewrite Hlog. unfold w1.
  rewrite !subscribers_push by done.
  rewrite decide_True, decide_False by done.
  change (this (with_lastIndex i w)) with (this w).
  change (log (with_lastIndex i w)) with (log w).
  rewrite map_app. cbn [map invocation callback context]. fold e.
  by rewrite <- !app_assoc.
Qed.

Lemma on_then_trigger_witness :
  lastIndex open_world = 0
  ∧ _splitRegExp (str "hello") = [str "hello"]
  ∧ str "hello" ≠ str "all"
  ∧ inherited (str "hello") = false
  ∧ let e := {| type := Val (JStr (str "hello")); data := or_else Undefined null;
                rawEvent := Undefined |} in
    ∃ w',
      (on (str "hello") 8 (Some 3) false >>
       trigger (Val (JStr (str "hello"))) Undefined Undefined) open_world
      = Returned w'
      ∧ log w'
        = log open_world
          ++ map (invocation e) (subscribers (this open_world) (str "hello"))
          ++ [Call 8 (Some 3) e]
          ++ map (invocation e) (subscribers (this open_world) (str "all")).
Proof.
  split; [reflexivity|]. split; [vm_compute; reflexivity|].
  split; [vm_compute; discriminate|]. split; [vm_compute; reflexivity|].
  apply on_then_trigger;
    [reflexivity | vm_compute; reflexivity | vm_compute; discriminate
    | vm_compute; reflexivity].
Defined.

(** ** Removal *)

(** On an empty registry [trigger] calls nobody and changes nothing. *)
Lemma trigger_on_empty t d r w :
  _callbacks (this w) = ∅ → world_of (trigger t d r w) = w.
Proof.
  intros Hw. rewrite trigger_total. unfold subscribers. rewrite Hw, !lookup_empty.
  destruct (read_callbacks (this w) (ToPropertyKey t));
    cbn [map app world_of]; by rewrite ?logged_nil.
Qed.

(** X6.  [off] without type, or with the empty string, whatever the
    callback, returns with the registry emptied, the settings kept and
    nothing logged; a [trigger] of any type after it calls nothing and
    leaves the instance as [off] left it, whether it returns or throws
    (it throws for a type that names a member of [Object.prototype]). *)
Theorem off_all_silences (ty : option (list N)) (cb : option nat)
    (t d r : value) (w : world) :
  ty = None ∨ ty = Some [] →
  off ty cb w = Returned (with_this (with_callbacks ∅ (this w)) w)
  ∧ world_of ((off ty cb >> trigger t d r) w)
    = with_this (with_callbacks ∅ (this w)) w.
Proof.
  intros [-> | ->]; (split; [reflexivity|]);
    unfold seq, off; by apply trigger_on_empty.
Qed.

Lemma off_all_silences_witness :
  (@None (list N) = None ∨ @None (list N) = Some [])
  ∧ off None None svc1_world
    = Returned (with_this (with_callbacks ∅ (this svc1_world)) svc1_world)
  ∧ world_of ((off None None >>
               trigger (Val (JStr (str "constructor"))) Undefined Undefined)
                svc1_world)
    = with_this (with_callbacks ∅ (this svc1_world)) svc1_world.
Proof.
  split; [by left|].
  apply (off_all_silences None None (Val (JStr (str "constructor"))) Undefined
           Undefined svc1_world).
  by left.
Defined.

Lemma _off_returns ty w : _off ty w = Returned (world_of (_off ty w)).
Proof. reflexivity. Qed.

Lemma off_names_spec ms :
  ∀ w, ∃ w',
    loop ms (λ eName, _off (Val (JStr eName))) w = Returned w'
    ∧ log w' = log w
    ∧ lastIndex w' = 0
    ∧ _targetWindow (this w') = _targetWindow (this w)
    ∧ _targetOrigin (this w') = _targetOrigin (this w)
    ∧ _connectionID (this w') = _connectionID (this w)
    ∧ ∀ k, _callbacks (this w') !! k
           = if decide (k ∈ map fst ms) then None else _callbacks (this w) !! k.
Proof.
  induction ms as [|[n i] ms IH]; intros w.
  { exists (with_lastIndex 0 w). repeat split; try done. }
  cbn [loop]. rewrite _off_returns.
  destruct (IH (world_of (_off (Val (JStr n)) (with_lastIndex i w))))
    as (w' & Hrun & Hlog & Hlast & Htw & Hto & Hid & Hsubs).
  exists w'. rewrite Hrun. repeat split; try done.
  intros k. rewrite Hsubs.
  change (_callbacks (this (world_of (_off (Val (JStr n)) (with_lastIndex i w)))))
    with (delete n (_callbacks (this w))).
  cbn [map fst].
  destruct (decide (k ∈ map fst ms)) as [Hin|Hnin].
  - rewrite decide_True; [done|]. by apply list_elem_of_further.
  - destruct (decide (k = n)) as [->|Hne].
    + rewrite lookup_delete_eq. rewrite decide_True; [done|]. apply list_elem_of_here.
    + rewrite lookup_delete_ne by done. rewrite decide_False; [done|].
      intros Hin. apply elem_of_cons in Hin as [?|?]; done.
Qed.

(** X7.  With the regular expression at rest, [off] with a non-empty type
    list and no callback returns without logging and without touching the
    settings, and leaves the regular expression at rest; it removes every
    record of each name of the list and leaves the other names as they
    were. *)
Theorem off_type_removes_names (c : N) (t : list N) (w : world) :
  lastIndex w = 0 →
  ∃ w',
    off (Some (c :: t)) None w = Returned w'
    ∧ log w' = log w
    ∧ lastIndex w' = 0
    ∧ _targetWindow (this w') = _targetWindow (this w)
    ∧ _targetOrigin (this w') = _targetOrigin (this w)
    ∧ _connectionID (this w') = _connectionID (this w)
    ∧ ∀ k, _callbacks (this w') !! k
           = if decide (k ∈ _splitRegExp (c :: t)) then None
             else _callbacks (this w) !! k.
Proof.
  intros Hrest. unfold off, while_exec. rewrite Hrest, drop_0.
  unfold _splitRegExp. rewrite <- (matches_at_names (c :: t) [] 0).
  apply off_names_spec.
Qed.

Lemma off_type_removes_names_witness :
  lastIndex open_world = 0
  ∧ ∃ w',
      off (Some (str "hello, all")) None open_world = Returned w'
      ∧ log w' = log open_world
      ∧ lastIndex w' = 0
      ∧ _targetWindow (this w') = _targetWindow (this open_world)
      ∧ _targetOrigin (this w') = _targetOrigin (this open_world)
      ∧ _connectionID (this w') = _connectionID (this open_world)
      ∧ ∀ k, _callbacks (this w') !! k
             = if decide (k ∈ _splitRegExp (str "hello, all")) then None
               else _callbacks (this open_world) !! k.
Proof.
  split; [reflexivity|].
  exact (off_type_removes_names 104 (str "ello, all") open_world eq_refl).
Defined.

(** The loop of [off] with a callback changes neither the instance nor
    the log, whether it runs to its end or is cut short by a throw. *)
Lemma off_callback_frame f ms :
  ∀ w,
    this (world_of (loop ms (λ eName, _offCallback (Val (JStr eName)) f) w))
    = this w
    ∧ log (world_of (loop ms (λ eName, _offCallback (Val (JStr eName)) f) w))
      = log w.
Proof.
  induction ms as [|[n i] ms IH]; intros w; [done|].
  cbn [loop]. rewrite _offCallback_total.
  destruct (read_callbacks (this (with_lastIndex i w)) (ToPropertyKey (Val (JStr n))));
    try done; apply (IH (with_lastIndex i w)).
Qed.

(** X8.  [off] with a non-empty type list and a callback function removes
    nothing: whether it returns or throws (it throws at a name that is a
    member of [Object.prototype]), the instance and the log are as
    before.  ([_offCallback] compares the function with the records of
    the array, never with their [callback] property.) *)
Theorem off_callback_removes_nothing (c : N) (t : list N) (f : nat) (w : world) :
  this (world_of (off (Some (c :: t)) (Some f) w)) = this w
  ∧ log (world_of (off (Some (c :: t)) (Some f) w)) = log w.
Proof. unfold off, while_exec. apply off_callback_frame. Qed.

(** X9.  With the regular expression at rest, after [off] with a type list
    and no callback, a [trigger] of a name of the list that is not a
    member of [Object.prototype] calls only the wildcard subscribers,
    provided [all] is not itself in the list. *)
Theorem off_type_then_trigger (c : N) (t k : list N) (d r : value) (w : world) :
  lastIndex w = 0 →
  k ∈ _splitRegExp (c :: t) →
  str "all" ∉ _splitRegExp (c :: t) →
  inherited k = false →
  let e := {| type := Val (JStr k); data := or_else d null; rawEvent := r |} in
  ∃ w',
    (off (Some (c :: t)) None >> trigger (Val (JStr k)) d r) w = Returned w'
    ∧ log w' = log w ++ map (invocation e) (subscribers (this w) (str "all")).
Proof.
  intros Hrest Hk Hall Hplain e. unfold seq, off, while_exec.
  rewrite Hrest, drop_0.
  destruct (off_names_spec (matches_at [] 0 (c :: t)) w)
    as (w' & -> & Hlog & _ & _ & _ & _ & Hnames).
  rewrite matches_at_names in Hnames. fold (_splitRegExp (c :: t)) in Hnames.
  rewrite trigger_spec by (by apply read_callbacks_plain).
  eexists. split; [reflexivity|].
  change (ToPropertyKey (Val (JStr k))) with k.
  unfold subscribers. rewrite !Hnames.
  rewrite decide_True, decide_False by done.
  cbn [logged log map app]. by rewrite Hlog.
Qed.

Lemma off_type_then_trigger_witness :
  lastIndex open_world = 0
  ∧ str "hello" ∈ _splitRegExp (str "hello, hi")
  ∧ (str "all" ∉ _splitRegExp (str "hello, hi"))
  ∧ inherited (str "hello") = false
  ∧ let e := {| type := Val (JStr (str "hello")); data := or_else Undefined null;
                rawEvent := Undefined |} in
    ∃ w',
      (off (Some (str "hello, hi")) None >>
       trigger (Val (JStr (str "hello"))) Undefined Undefined) open_world
      = Returned w'
      ∧ log w'
        = log open_world
          ++ map (invocation e) (subscribers (this open_world) (str "all")).
Proof.
  assert (H1 : str "hello" ∈ _splitRegExp (str "hello, hi")).
  { vm_compute. apply list_elem_of_here. }
  assert (H2 : str "all" ∉ _splitRegExp (str "hello, hi")).
  { vm_compute. intros H. repeat (apply elem_of_cons in H as [H|H]; [discriminate|]).
    by apply elem_of_nil in H. }
  split; [reflexivity|]. split; [exact H1|]. split; [exact H2|].
  split; [reflexivity|].
  exact (off_type_then_trigger 104 (str "ello, hi") (str "hello") Undefined
           Undefined open_world eq_refl H1 H2 eq_refl).
Defined.

(** ** The names of the registry *)

Lemma names_plain_push n cb ctx o w :
  n ≠ [] → Forall (λ c, separator c = false) n →
  names_plain (this w) →
  names_plain (this (world_of (push n cb ctx o w))).
Proof.
  intros Hne Hn Hw k a. unfold push.
  destruct (read_callbacks (this w) n);
    cbn [world_of with_this this _callbacks with_callbacks]; try apply Hw;
    (destruct (decide (n = k)) as [<-|Hk];
     [done | rewrite lookup_insert_ne by done; apply Hw]).
Qed.

Lemma names_plain_loop cb ctx o ms :
  Forall (λ m, fst m ≠ [] ∧ Forall (λ c, separator c = false) (fst m)) ms →
  ∀ w, names_plain (this w) →
       names_plain
         (this (world_of (loop ms (λ eName, push eName cb ctx o) w))).
Proof.
  induction 1 as [|[n i] ms [Hne Hn] _ IH]; intros w Hw; [done|].
  cbn [loop fst] in *. rewrite push_total.
  destruct (read_callbacks (this (with_lastIndex i w)) n);
    try done; apply IH; by apply names_plain_push.
Qed.

Lemma names_plain_kept :
  (∀ sets, names_plain (this (PMS_new sets)))
  ∧ (∀ w, names_plain (this w) →
      (∀ ty cb ctx o, names_plain (this (world_of (on ty cb ctx o w))))
      ∧ (∀ ty cb, names_plain (this (world_of (off ty cb w))))
      ∧ (∀ sets, names_plain (this (world_of (set sets w))))
      ∧ (∀ ty d r, names_plain (this (world_of (trigger ty d r w))))).
Proof.
  split.
  { intros sets k a. cbn. by rewrite lookup_empty. }
  intros w Hw. split; [|split; [|split]].
  - intros ty cb ctx o. apply names_plain_loop; [|done].
    apply Forall_forall. intros [n i] Hn. cbn [fst].
    apply (names_of_matches (drop (lastIndex w) ty)).
    unfold _splitRegExp.
    rewrite <- (matches_at_names _ [] (lastIndex w)).
    apply list_elem_of_fmap. by exists (n, i).
  - intros [[|c t]|] cb.
    + intros k a. cbn. by rewrite lookup_empty.
    + destruct cb as [f|].
      * unfold off, while_exec.
        by rewrite (proj1 (off_callback_frame f _ w)).
      * unfold off, while_exec.
        destruct (off_names_spec
                    (matches_at [] (lastIndex w) (drop (lastIndex w) (c :: t))) w)
          as (w' & -> & _ & _ & _ & _ & _ & Hk).
        intros k a. cbn [world_of]. rewrite Hk. case_decide; [done|apply Hw].
    + intros k a. cbn. by rewrite lookup_empty.
  - intros sets. apply Hw.
  - intros ty d r. by rewrite trigger_keeps_instance.
Qed.

(** X10.  The registry only ever holds names that are non-empty and
    contain neither a comma nor white space: this holds on a new
    instance and is kept by [on], [off], [set] and [trigger]. *)
Theorem names_stay_plain :
  (∀ sets, names_plain (this (PMS_new sets)))
  ∧ (∀ w, names_plain (this w) →
      (∀ ty cb ctx o, names_plain (this (world_of (on ty cb ctx o w))))
      ∧ (∀ ty cb, names_plain (this (world_of (off ty cb w))))
      ∧ (∀ sets, names_plain (this (world_of (set sets w))))
      ∧ (∀ ty d r, names_plain (this (world_of (trigger ty d r w))))).
Proof. apply names_plain_kept. Qed.

(** X11.  On a registry of plain names, a [trigger] whose type is a string
    with a comma or white space in it reaches nobody but the wildcard
    subscribers, once. *)
Theorem trigger_of_list_reaches_wildcard_only
    (s : list N) (d r : value) (w : world) :
  names_plain (this w) →
  Exists (λ c, separator c = true) s →
  let e := {| type := Val (JStr s); data := or_else d null; rawEvent := r |} in
  trigger (Val (JStr s)) d r w
  = Returned (logged w (map (invocation e) (subscribers (this w) (str "all")))).
Proof.
  intros Hw Hs e.
  rewrite trigger_spec
    by (by apply read_callbacks_plain, separator_not_inherited).
  change (ToPropertyKey (Val (JStr s))) with s.
  unfold subscribers at 1.
  destruct (_callbacks (this w) !! s) as [a|] eqn:Ha; [|done].
  destruct (Hw s a Ha) as [_ Hplain].
  apply Exists_exists in Hs as (c & Hc & Hsep).
  rewrite Forall_forall in Hplain. specialize (Hplain c Hc). congruence.
Qed.

Lemma trigger_of_list_reaches_wildcard_only_witness :
  names_plain (this open_world)
  ∧ Exists (λ c, separator c = true) (str "hello, hi")
  ∧ let e := {| type := Val (JStr (str "hello, hi"));
                data := or_else Undefined null; rawEvent := Undefined |} in
    trigger (Val (JStr (str "hello, hi"))) Undefined Undefined open_world
    = Returned (logged open_world
                  (map (invocation e) (subscribers (this open_world) (str "all")))).
Proof.
  assert (H1 : names_plain (this open_world)).
  { destruct names_plain_kept as [Hnew Hkeep].
    apply (Hkeep (PMS_new open_settings) (Hnew open_settings)). }
  assert (H2 : Exists (λ c, separator c = true) (str "hello, hi")).
  { apply Exists_exists. exists 44%N. split; [|reflexivity].
    vm_compute. do 5 apply list_elem_of_further. apply list_elem_of_here. }
  split; [exact H1|]. split; [exact H2|].
  exact (trigger_of_list_reaches_wildcard_only _ _ _ _ H1 H2).
Defined.

(** ** What [trigger] does and does not *)

(** X12.  [trigger] only calls callbacks: every effect it adds is a call
    whose event has the given type and raw event, and data that is either
    the given data or, when that is falsy (absent, null, false, zero, the
    empty string), null. *)
Theorem trigger_only_calls (ty d r : value) (w : world) (x : effect) :
  x ∈ drop (length (log w)) (log (world_of (trigger ty d r w))) →
  ∃ f c e,
    x = Call f c e
    ∧ type e = ty ∧ rawEvent e = r
    ∧ data e = (if truthy d then d else null).
Proof.
  intros Hx. apply trigger_effects in Hx as (item & ->).
  do 3 eexists. split; [reflexivity|]. done.
Qed.

Lemma trigger_only_calls_witness :
  let e := {| type := Val (JStr (str "hello")); data := null;
              rawEvent := Undefined |} in
  Call 7 None e
  ∈ drop (length (log open_world))
      (log (world_of (trigger (Val (JStr (str "hello"))) (Val (JStr []))
                        Undefined open_world)))
  ∧ ∃ f c e',
      Call 7 None e = Call f c e'
      ∧ type e' = Val (JStr (str "hello")) ∧ rawEvent e' = Undefined
      ∧ data e' = (if truthy (Val (JStr [])) then Val (JStr []) else null).
Proof.
  intros e.
  assert (H : Call 7 None e
              ∈ drop (length (log open_world))
                  (log (world_of (trigger (Val (JStr (str "hello")))
                                    (Val (JStr [])) Undefined open_world)))).
  { vm_compute. apply list_elem_of_here. }
  split; [exact H|].
  exact (trigger_only_calls _ _ _ _ _ H).
Defined.

(** X13.  A [trigger] of the type [all] calls every wildcard subscriber
    twice: once as subscriber of the type, once as wildcard. *)
Theorem trigger_all_calls_twice (d r : value) (w : world) :
  let e := {| type := Val (JStr (str "all")); data := or_else d null;
              rawEvent := r |} in
  trigger (Val (JStr (str "all"))) d r w
  = Returned
      (logged w (map (invocation e) (subscribers (this w) (str "all"))
                 ++ map (invocation e) (subscribers (this w) (str "all")))).
Proof.
  intros e. by rewrite trigger_spec by (by apply read_callbacks_plain).
Qed.

(** ** Settings *)

(** X14.  The last [set] wins: after two calls the instance is as after
    the second alone, so nothing of earlier settings is kept (a
    connectionID, for one, is cleared by a later [set] without one), and
    repeating a [set] changes nothing. *)
Theorem set_overwrites (s1 s2 : option settings) (w : world) :
  (set s1 >> set s2) w = set s2 w
  ∧ (set s2 >> set s2) w = set s2 w.
Proof. split; reflexivity. Qed.

(** ** From one endpoint to the other *)

Lemma send_posts_envelope (ty : list N) (d : json) (t : nat) (w : world) :
  _targetWindow (this w) = PWindow t →
  typeof_object (Val d) = true →
  send ty (Val d) w
  = Returned
      (logged w [PostMessage t
                   (JSON_stringify (message_of (_connectionID (this w)) d ty))
                   (_targetOrigin (this w))]).
Proof.
  intros Ht Hobj. unfold send, or_else, postMessage. rewrite Ht.
  destruct d as [|b|m e|s|items|ms]; try done.
Qed.

Lemma process_envelope (idA : option (list N)) (ty : list N) (d : json)
    (w : world) :
  let env := message_of idA d ty in
  _processMessage (JSON_stringify env) w
  = match _connectionID (this w) with
    | None => trigger (Val (JStr ty)) (Val d) (Val env) w
    | Some id =>
        if bool_decide (idA = Some id)
        then trigger (Val (JStr ty)) (Val d) (Val env) w
        else Returned w
    end.
Proof.
  intros env. unfold _processMessage, try_decode. subst env.
  rewrite JSON_parse_stringify.
  cbn [get d_parsed d_type d_data d_rawEvent message_of].
  change (member (str "connectionID") _)
    with (Some (match idA with Some i => JStr i | None => JNull end)).
  change (member (str "type") _) with (Some (JStr ty)).
  change (member (str "data") _) with (Some d).
  destruct (_connectionID (this w)) as [id|]; [|reflexivity].
  destruct idA as [i|]; cbn [strict_equals_string].
  - destruct (decide (id = i)) as [->|Hne].
    + by rewrite !bool_decide_eq_true_2.
    + rewrite !bool_decide_eq_false_2; [done| |done]. congruence.
  - by rewrite bool_decide_eq_false_2.
Qed.

(** X15.  What [send] posts, the peer dispatches or drops by the
    connectionID alone.  When endpoint A, whose target is a window, sends
    an object, an array or null, exactly that envelope is posted; when
    endpoint B receives the wire string from its target window, it
    triggers the type with that data and the envelope as raw event if B
    has no connectionID or has the connectionID of A, and otherwise
    returns with nothing dispatched.  In particular an endpoint with a
    connectionID drops all that an endpoint without one sends. *)
Theorem send_then_receive (ty : list N) (d : json) (t : nat)
    (e : MessageEvent.t) (wA wB : world) :
  _targetWindow (this wA) = PWindow t →
  typeof_object (Val d) = true →
  MessageEvent.source e = _targetWindow (this wB) →
  MessageEvent.data e
  = JSON_stringify (message_of (_connectionID (this wA)) d ty) →
  send ty (Val d) wA
  = Returned (logged wA [PostMessage t (MessageEvent.data e)
                           (_targetOrigin (this wA))])
  ∧ _receive e wB
    = if bool_decide (_connectionID (this wB) = None
                      ∨ _connectionID (this wB) = _connectionID (this wA))
      then trigger (Val (JStr ty)) (Val d)
             (Val (message_of (_connectionID (this wA)) d ty)) wB
      else Returned wB.
Proof.
  intros Ht Hobj Hsrc Hdata. split.
  - rewrite Hdata. by apply send_posts_envelope.
  - unfold _receive. rewrite decide_True by done. rewrite Hdata.
    rewrite process_envelope.
    destruct (_connectionID (this wB)) as [id|].
    + destruct (decide (_connectionID (this wA) = Some id)) as [Heq|Hne].
      * rewrite !bool_decide_eq_true_2; [done| |done]. by right.
      * rewrite !bool_decide_eq_false_2; [done| |done].
        intros [?|?]; congruence.
    + rewrite bool_decide_eq_true_2; [done|by left].
Qed.

Lemma send_then_receive_witness :
  let e := {| MessageEvent.source := PWindow 1;
              MessageEvent.data := hello_from (str "svc1") |} in
  let d := JObj [(str "a", JNum 1 0)] in
  _targetWindow (this svc1_world) = PWindow 1
  ∧ typeof_object (Val d) = true
  ∧ MessageEvent.source e = _targetWindow (this svc1_world)
  ∧ MessageEvent.data e
    = JSON_stringify (message_of (_connectionID (this svc1_world)) d (str "hello"))
  ∧ send (str "hello") (Val d) svc1_world
    = Returned (logged svc1_world
                  [PostMessage 1 (MessageEvent.data e)
                     (_targetOrigin (this svc1_world))])
  ∧ _receive e svc1_world
    = if bool_decide (_connectionID (this svc1_world) = None
                      ∨ _connectionID (this svc1_world)
                        = _connectionID (this svc1_world))
      then trigger (Val (JStr (str "hello"))) (Val d)
             (Val (message_of (_connectionID (this svc1_world)) d (str "hello")))
             svc1_world
      else Returned svc1_world.
Proof.
  intros e d.
  split; [reflexivity|]. split; [reflexivity|]. split; [reflexivity|].
  split; [reflexivity|].
  apply (send_then_receive (str "hello") d 1 e svc1_world svc1_world);
    reflexivity.
Defined.

(** X16.  [sendRAW] never rejects a message: on an instance whose target
    is a window it posts the JSON text of [message || null].  A peer
    without connectionID that processes this text falls back to the type
    [message] only for null (that is, for a falsy message); for an object
    it triggers the members [type] and [data] of the object; for a number,
    a string, [true] or an array it triggers the undefined type, with
    null data and the value as raw event. *)
Theorem sendRAW_then_process (m : value) (t : nat) (wA wB : world) :
  _targetWindow (this wA) = PWindow t →
  _connectionID (this wB) = None →
  ∃ j,
    or_else m null = Val j
    ∧ sendRAW m wA
      = Returned (logged wA [PostMessage t (JSON_stringify j)
                               (_targetOrigin (this wA))])
    ∧ _processMessage (JSON_stringify j) wB
      = match j with
        | JNull =>
            trigger (Val (JStr (str "message"))) null
              (Val (JStr (str "null"))) wB
        | JObj ms =>
            trigger (field ms (str "type")) (field ms (str "data")) (Val j) wB
        | _ => trigger Undefined Undefined (Val j) wB
        end.
Proof.
  intros Ht Hid.
  assert (Hj : ∃ j, or_else m null = Val j).
  { unfold or_else. destruct (truthy m) eqn:Hm; [|by eexists].
    destruct m; [done|by eexists]. }
  destruct Hj as [j Hj]. exists j. split; [done|]. split.
  - unfold sendRAW, postMessage. by rewrite Hj, Ht.
  - unfold _processMessage, try_decode. rewrite JSON_parse_stringify, Hid.
    by destruct j.
Qed.

Lemma sendRAW_then_process_witness :
  _targetWindow (this svc1_world) = PWindow 1
  ∧ _connectionID (this open_world) = None
  ∧ ∃ j,
      or_else (Val (JStr (str "Hi Jack"))) null = Val j
      ∧ sendRAW (Val (JStr (str "Hi Jack"))) svc1_world
        = Returned (logged svc1_world
                      [PostMessage 1 (JSON_stringify j)
                         (_targetOrigin (this svc1_world))])
      ∧ _processMessage (JSON_stringify j) open_world
        = match j with
          | JNull =>
              trigger (Val (JStr (str "message"))) null
                (Val (JStr (str "null"))) open_world
          | JObj ms =>
              trigger (field ms (str "type")) (field ms (str "data")) (Val j)
                open_world
          | _ => trigger Undefined Undefined (Val j) open_world
          end.
Proof.
  split; [reflexivity|]. split; [reflexivity|].
  apply (sendRAW_then_process (Val (JStr (str "Hi Jack"))) 1 svc1_world
           open_world); reflexivity.
Defined.

(** ** Inbound, with a connectionID *)

(** X17.  On an instance with a connectionID, a payload that is not JSON
    or that denotes null makes [_processMessage] throw the TypeError of
    reading [parsed.connectionID]; a payload that denotes a number, a
    string, a boolean or an array is dropped without error; an object is
    dropped unless its member [connectionID] is that very string.  In all
    these cases nothing is dispatched and the instance is unchanged. *)
Theorem processMessage_with_connectionID (p id : list N) (w : world) :
  _connectionID (this w) = Some id →
  match JSON_parse p with
  | None | Some JNull => _processMessage p w = Thrown HostTypeError w
  | Some (JObj ms) =>
      field ms (str "connectionID") ≠ Val (JStr id) →
      _processMessage p w = Returned w
  | Some _ => _processMessage p w = Returned w
  end.
Proof.
  intros Hid. unfold _processMessage, try_decode. rewrite Hid.
  destruct (JSON_parse p) as [[|b|m e|s|items|ms]|]; try reflexivity.
  cbn [get d_parsed]. fold (field ms (str "connectionID")).
  intros Hne. unfold strict_equals_string.
  destruct (field ms (str "connectionID")) as [|[]]; try done.
  rewrite bool_decide_eq_false_2; [done|]. congruence.
Qed.

Lemma processMessage_with_connectionID_witness :
  _connectionID (this svc1_world) = Some (str "svc1")
  ∧ match JSON_parse (str "[1, 2]") with
    | None | Some JNull =>
        _processMessage (str "[1, 2]") svc1_world
        = Thrown HostTypeError svc1_world
    | Some (JObj ms) =>
        field ms (str "connectionID") ≠ Val (JStr (str "svc1")) →
        _processMessage (str "[1, 2]") svc1_world = Returned svc1_world
    | Some _ => _processMessage (str "[1, 2]") svc1_world = Returned svc1_world
    end.
Proof.
  split; [reflexivity|].
  apply (processMessage_with_connectionID (str "[1, 2]") (str "svc1") svc1_world).
  reflexivity.
Defined.

(** ** What the inbound and outbound paths do not do *)

(** X18.  Receiving never changes the instance and never posts: whatever
    the message, after [_receive] the settings and the registry are as
    before, and every effect added to the log is a call of a
    callback. *)
Theorem receive_frame (e : MessageEvent.t) (w : world) :
  this (world_of (_receive e w)) = this w
  ∧ ∀ x, x ∈ drop (length (log w)) (log (world_of (_receive e w))) →
         ∃ f c ev, x = Call f c ev.
Proof.
  assert (Htrig : ∀ ty d r,
            this (world_of (trigger ty d r w)) = this w
            ∧ ∀ x, x ∈ drop (length (log w)) (log (world_of (trigger ty d r w))) →
                   ∃ f c ev, x = Call f c ev).
  { intros ty d r. split; [apply trigger_keeps_instance|].
    intros x Hx. apply trigger_effects in Hx as (item & ->).
    by do 3 eexists. }
  assert (Hnone : this w = this w
            ∧ ∀ x, x ∈ drop (length (log w)) (log w) → ∃ f c ev, x = Call f c ev).
  { split; [done|]. intros x. rewrite drop_all. by intros ?%elem_of_nil. }
  unfold _receive. destruct (decide _); [|exact Hnone].
  unfold _processMessage.
  destruct (_connectionID (this w)); [|apply Htrig].
  destruct (get _ _); [|exact Hnone].
  destruct (strict_equals_string _ _); [apply Htrig|exact Hnone].
Qed.

(** X19.  Sending never calls a callback and never changes the instance:
    [send] and [sendRAW] leave the settings and the registry as they
    were, whether they return or throw, and add at most one effect, a
    [postMessage] to the target window with the target origin. *)
Theorem send_frame (ty : list N) (d : value) (w : world) :
  (this (world_of (send ty d w)) = this w
   ∧ (log (world_of (send ty d w)) = log w
      ∨ ∃ t msg, _targetWindow (this w) = PWindow t
                 ∧ log (world_of (send ty d w))
                   = log w ++ [PostMessage t msg (_targetOrigin (this w))]))
  ∧ (this (world_of (sendRAW d w)) = this w
     ∧ (log (world_of (sendRAW d w)) = log w
        ∨ ∃ t msg, _targetWindow (this w) = PWindow t
                   ∧ log (world_of (sendRAW d w))
                     = log w ++ [PostMessage t msg (_targetOrigin (this w))])).
Proof.
  assert (Hpost : ∀ msg,
            this (world_of (postMessage msg w)) = this w
            ∧ (log (world_of (postMessage msg w)) = log w
               ∨ ∃ t msg', _targetWindow (this w) = PWindow t
                   ∧ log (world_of (postMessage msg w))
                     = log w ++ [PostMessage t msg' (_targetOrigin (this w))])).
  { intros msg. unfold postMessage.
    destruct (_targetWindow (this w)) as [| |t] eqn:Ht; cbn;
      (split; [done|]); [by left..|]. right. by do 2 eexists. }
  split.
  - unfold send. destruct (typeof_object (or_else d null));
      [destruct (or_else d null)|]; try apply Hpost; cbn; by (split; [|left]).
  - unfold sendRAW. destruct (or_else d null); [|apply Hpost].
    cbn; by (split; [|left]).
Qed.

(** X20.  Without a target window nothing can be sent: on an instance
    whose target is undefined or null (as after [new PMS()]), [send]
    with valid data and [sendRAW] with any message throw the TypeError of
    the host, and nothing is posted. *)
Theorem send_without_target (ty : list N) (d : value) (w : world) :
  _targetWindow (this w) = PUndefined ∨ _targetWindow (this w) = PNull →
  (truthy d = false ∨ typeof_object d = true →
   send ty d w = Thrown HostTypeError w)
  ∧ sendRAW d w = Thrown HostTypeError w.
Proof.
  intros Ht. split.
  - intros Hd. unfold send, or_else, postMessage.
    destruct Ht as [-> | ->];
      destruct d as [|[|[]|m e|[|c s]|items|ms]]; cbn in *;
      try destruct (m =? 0)%Z; cbn in *; try done; by destruct Hd.
  - unfold sendRAW, or_else, postMessage.
    destruct Ht as [-> | ->]; destruct (truthy d) eqn:Hd; try done;
      destruct d; done.
Qed.

Lemma send_without_target_witness :
  (_targetWindow (this (PMS_new None)) = PUndefined
   ∨ _targetWindow (this (PMS_new None)) = PNull)
  ∧ (truthy (Val (JObj [])) = false ∨ typeof_object (Val (JObj [])) = true →
     send (str "hello") (Val (JObj [])) (PMS_new None)
     = Thrown HostTypeError (PMS_new None))
  ∧ sendRAW (Val (JObj [])) (PMS_new None)
    = Thrown HostTypeError (PMS_new None).
Proof.
  split; [by left|].
  apply (send_without_target (str "hello") (Val (JObj [])) (PMS_new None)).
  by left.
Defined.

(** ** The constructor *)

(** X21.  A new instance has the settings that [set] gives, an empty
    log and no subscriber at all: a [trigger] of any type on it calls
    nothing and changes nothing, whether it returns or throws. *)
Theorem new_instance_is_silent (sets : option settings) (ty d r : value) :
  _callbacks (this (PMS_new sets)) = ∅
  ∧ log (PMS_new sets) = []
  ∧ _targetWindow (this (PMS_new sets))
    = _targetWindow (this (world_of (set sets (PMS_new None))))
  ∧ _targetOrigin (this (PMS_new sets))
    = _targetOrigin (this (world_of (set sets (PMS_new None))))
  ∧ _connectionID (this (PMS_new sets))
    = _connectionID (this (world_of (set sets (PMS_new None))))
  ∧ world_of (trigger ty d r (PMS_new sets)) = PMS_new sets.
Proof.
  split; [reflexivity|]. split; [reflexivity|]. split; [reflexivity|].
  split; [reflexivity|]. split; [reflexivity|].
  by apply trigger_on_empty.
Qed.

(** ** Names that are members of [Object.prototype] *)

Lemma no_inherited_array_read p k :
  no_inherited_array p → inherited k = true → read_callbacks p k = NotArray.
Proof. intros Hp Hk. unfold read_callbacks. by rewrite (Hp k Hk), Hk. Qed.

Lemma no_inherited_array_push n cb ctx o w :
  no_inherited_array (this w) →
  no_inherited_array (this (world_of (push n cb ctx o w))).
Proof.
  intros Hw. destruct (inherited n) eqn:Hn.
  - rewrite push_total, (no_inherited_array_read _ _ Hw Hn). exact Hw.
  - intros k Hk. assert (n ≠ k) by congruence. unfold push.
    destruct (read_callbacks (this w) n);
      cbn [world_of with_this this _callbacks with_callbacks];
      rewrite ?lookup_insert_ne by done; by apply Hw.
Qed.

Lemma no_inherited_array_loop cb ctx o ms :
  ∀ w, no_inherited_array (this w) →
       no_inherited_array
         (this (world_of (loop ms (λ eName, push eName cb ctx o) w))).
Proof.
  induction ms as [|[n i] ms IH]; intros w Hw; [done|].
  cbn [loop]. rewrite push_total.
  destruct (read_callbacks (this (with_lastIndex i w)) n);
    try done; apply IH; by apply no_inherited_array_push.
Qed.

Lemma no_inherited_array_kept :
  (∀ sets, no_inherited_array (this (PMS_new sets)))
  ∧ (∀ w, no_inherited_array (this w) →
      (∀ ty cb ctx o, no_inherited_array (this (world_of (on ty cb ctx o w))))
      ∧ (∀ ty cb, no_inherited_array (this (world_of (off ty cb w))))
      ∧ (∀ sets, no_inherited_array (this (world_of (set sets w))))
      ∧ (∀ ty d r, no_inherited_array (this (world_of (trigger ty d r w))))).
Proof.
  split.
  { intros sets k Hk. cbn. by rewrite lookup_empty. }
  intros w Hw. split; [|split; [|split]].
  - intros ty cb ctx o. by apply no_inherited_array_loop.
  - intros [[|c t]|] cb.
    + intros k Hk. cbn. by rewrite lookup_empty.
    + destruct cb as [f|].
      * unfold off, while_exec.
        by rewrite (proj1 (off_callback_frame f _ w)).
      * unfold off, while_exec.
        destruct (off_names_spec
                    (matches_at [] (lastIndex w) (drop (lastIndex w) (c :: t))) w)
          as (w' & -> & _ & _ & _ & _ & _ & Hnames).
        intros k Hk. cbn [world_of]. rewrite Hnames.
        case_decide; [done|by apply Hw].
    + intros k Hk. cbn. by rewrite lookup_empty.
  - intros sets. apply Hw.
  - intros ty d r. by rewrite trigger_keeps_instance.
Qed.

(** X22.  For a type that is a string and not the name of a member of
    [Object.prototype], [trigger] returns, leaves the instance as it was,
    and calls, with one and the same event, first every subscriber
    registered under the type, in the order of registration, and then
    every subscriber registered under the wildcard name [all], in the
    order of registration. *)
Theorem trigger_calls_type_then_wildcard (k : list N) (d r : value) (w : world) :
  inherited k = false →
  let e := {| type := Val (JStr k); data := or_else d null; rawEvent := r |} in
  trigger (Val (JStr k)) d r w
  = Returned
      (logged w (map (invocation e) (subscribers (this w) k)
                 ++ map (invocation e) (subscribers (this w) (str "all")))).
Proof.
  intros Hk e. by rewrite trigger_spec by (by apply read_callbacks_plain).
Qed.

Lemma trigger_calls_type_then_wildcard_witness :
  inherited (str "hello") = false
  ∧ let e := {| type := Val (JStr (str "hello"));
                data := or_else (Val (JObj [])) null; rawEvent := Undefined |} in
    trigger (Val (JStr (str "hello"))) (Val (JObj [])) Undefined open_world
    = Returned
        (logged open_world
           (map (invocation e) (subscribers (this open_world) (str "hello"))
            ++ map (invocation e) (subscribers (this open_world) (str "all")))).
Proof.
  split; [reflexivity|].
  exact (trigger_calls_type_then_wildcard (str "hello") (Val (JObj [])) Undefined
           open_world eq_refl).
Defined.

(** X23.  No array is ever registered under a name that
    [Object.prototype] has ([constructor], [toString], [valueOf],
    [__proto__] and the like): this holds on a new instance and is kept
    by [on], [off], [set] and [trigger]. *)
Theorem inherited_names_never_registered :
  (∀ sets, no_inherited_array (this (PMS_new sets)))
  ∧ (∀ w, no_inherited_array (this w) →
      (∀ ty cb ctx o, no_inherited_array (this (world_of (on ty cb ctx o w))))
      ∧ (∀ ty cb, no_inherited_array (this (world_of (off ty cb w))))
      ∧ (∀ sets, no_inherited_array (this (world_of (set sets w))))
      ∧ (∀ ty d r, no_inherited_array (this (world_of (trigger ty d r w))))).
Proof. apply no_inherited_array_kept. Qed.

(** X24.  On an instance with no array under a name that
    [Object.prototype] has (every instance reached from the constructor
    is one), a [trigger] whose type is the name of a member of
    [Object.prototype] throws a TypeError and calls nobody, the wildcard
    subscribers included. *)
Theorem trigger_of_inherited_name_throws (k : list N) (d r : value) (w : world) :
  no_inherited_array (this w) →
  inherited k = true →
  trigger (Val (JStr k)) d r w = Thrown HostTypeError w.
Proof.
  intros Hw Hk. rewrite trigger_total.
  change (ToPropertyKey (Val (JStr k))) with k.
  by rewrite (no_inherited_array_read _ _ Hw Hk).
Qed.

Lemma trigger_of_inherited_name_throws_witness :
  no_inherited_array (this open_world)
  ∧ inherited (str "valueOf") = true
  ∧ trigger (Val (JStr (str "valueOf"))) Undefined Undefined open_world
    = Thrown HostTypeError open_world.
Proof.
  assert (H : no_inherited_array (this open_world)).
  { destruct no_inherited_array_kept as [Hnew Hkeep].
    apply (Hkeep (PMS_new open_settings) (Hnew open_settings)). }
  split; [exact H|]. split; [reflexivity|].
  exact (trigger_of_inherited_name_throws (str "valueOf") Undefined Undefined
           open_world H eq_refl).
Defined.

(** X25.  On an instance with no array under a name that
    [Object.prototype] has, with the regular expression at rest, [on]
    with the name of a member of [Object.prototype] throws a TypeError at
    [push]: nothing is registered, nothing is logged, and the regular
    expression is left with its index at the end of the name.  [off] with
    the name and a callback function does the same. *)
Theorem on_of_inherited_name_throws (k : list N) (cb : nat) (ctx : option nat)
    (o : bool) (w : world) :
  no_inherited_array (this w) →
  lastIndex w = 0 →
  inherited k = true →
  on k cb ctx o w = Thrown HostTypeError (with_lastIndex (length k) w)
  ∧ off (Some k) (Some cb) w = Thrown HostTypeError (with_lastIndex (length k) w).
Proof.
  intros Hw Hrest Hk. destruct (inherited_plain k Hk) as [Hne Hplain].
  assert (Hms : matches_at [] 0 k = [(k, length k)]).
  { rewrite matches_at_plain_run by done. cbn [rev app]. by destruct k. }
  split.
  - unfold on, while_exec. rewrite Hrest, drop_0, Hms. cbn [loop].
    by rewrite push_total,
      (no_inherited_array_read (this (with_lastIndex (length k) w)) k Hw Hk).
  - destruct k as [|c t]; [done|].
    unfold off, while_exec. rewrite Hrest, drop_0, Hms. cbn [loop].
    rewrite _offCallback_total.
    change (ToPropertyKey (Val (JStr (c :: t)))) with (c :: t).
    by rewrite
      (no_inherited_array_read (this (with_lastIndex (length (c :: t)) w))
         (c :: t) Hw Hk).
Qed.

Lemma on_of_inherited_name_throws_witness :
  no_inherited_array (this open_world)
  ∧ lastIndex open_world = 0
  ∧ inherited (str "constructor") = true
  ∧ on (str "constructor") 8 None false open_world
    = Thrown HostTypeError (with_lastIndex (length (str "constructor")) open_world)
  ∧ off (Some (str "constructor")) (Some 8) open_world
    = Thrown HostTypeError (with_lastIndex (length (str "constructor")) open_world).
Proof.
  assert (H : no_inherited_array (this open_world)).
  { destruct no_inherited_array_kept as [Hnew Hkeep].
    apply (Hkeep (PMS_new open_settings) (Hnew open_settings)). }
  split; [exact H|]. split; [reflexivity|]. split; [reflexivity|].
  exact (on_of_inherited_name_throws (str "constructor") 8 None false
           open_world H eq_refl eq_refl).
Defined.

(** X26.  The regular expression is shared and keeps its index: when a
    loop of [on] or [off] was cut short and left the index at or beyond
    the length of the next type list, the next [on] registers nothing and
    the next [off] removes nothing; they return with the regular
    expression at rest and all else as it was. *)
Theorem stale_index_loses_names (c : N) (t : list N) (cb : nat)
    (ctx : option nat) (o : bool) (f : option nat) (w : world) :
  length (c :: t) ≤ lastIndex w →
  on (c :: t) cb ctx o w = Returned (with_lastIndex 0 w)
  ∧ off (Some (c :: t)) f w = Returned (with_lastIndex 0 w).
Proof.
  intros Hlen. split.
  - unfold on, while_exec. by rewrite drop_ge.
  - unfold off, while_exec. by rewrite drop_ge.
Qed.

Lemma stale_index_loses_names_witness :
  let w := world_of (on (str "constructor") 8 None false open_world) in
  length (str "hello") ≤ lastIndex w
  ∧ on (str "hello") 9 None false w = Returned (with_lastIndex 0 w)
  ∧ off (Some (str "hello")) None w = Returned (with_lastIndex 0 w).
Proof.
  intros w.
  assert (H : length (str "hello") ≤ lastIndex w) by (vm_compute; lia).
  split; [exact H|].
  exact (stale_index_loses_names 104 (str "ello") 9 None false None w H).
Defined.
